(** * Flap channel runtime ([src/runtime/channel.c])

    A shallow embedding of the CSP channel of the Flap runtime and the
    properties its specification states about it.

    Every access to a [Channel] happens with the channel's mutex held, and
    [pthread_cond_wait] releases the mutex atomically.  The code of
    [channel_send], [channel_recv] and [channel_close] is therefore cut at
    its suspension points into _sections_: a section starts where a thread
    acquires the mutex ([pthread_mutex_lock], or the return of a
    [pthread_cond_wait]) and runs to the point where it gives the mutex up
    again (the next [pthread_cond_wait], or [pthread_mutex_unlock]).  A
    concurrent execution is an interleaving of sections.  POSIX lets
    [pthread_cond_wait] return spuriously, so a parked thread may run its
    next section at any time; [pthread_cond_signal] and
    [pthread_cond_broadcast] add no behaviour and are not represented. *)

From Stdlib Require Import ZArith Lia Bool.
From Stdlib Require Import Floats.PrimFloat.
From stdpp Require Import base option list.

Local Open Scope Z_scope.

(** ** Data model *)

(** The payload is a C [double]; the channel only copies it. *)
Definition double : Type := float.

(** Line 120 and line 133: the literal [0.0]. *)
Definition zero : double := 0%float.

(** [size_t] is 64 bits wide; arithmetic on it wraps. *)
Definition SIZE_MOD : Z := 2 ^ 64.
Definition wrap (z : Z) : Z := z mod SIZE_MOD.

(** [sizeof(double)]. *)
Definition SIZEOF_DOUBLE : Z := 8.

Definition CHANNEL_OPEN : Z := 0.
Definition CHANNEL_CLOSED : Z := 1.

(** The [Channel] struct, lines 17-27.  [buffer] is [None] for a null
    pointer and [Some l] for a block holding the slots [l].  The mutex and
    the two condition variables carry no data of their own: they are the
    section structure described above. *)
Record Channel : Type := mkChannel {
  buffer : option (list double);
  read_idx : Z;
  write_idx : Z;
  count : Z;
  capacity : Z;
  closed : Z
}.

(** What [malloc] hands back: a null pointer, or a fresh block whose bytes
    are not initialised (here: every slot holds [junk]). *)
Inductive malloc_result : Type :=
| MallocNull
| MallocBlock (junk : double).

(** [(double* )malloc(bytes)]: the block has room for [bytes / 8] slots. *)
Definition malloc_doubles (bytes : Z) (m : malloc_result) : option (list double) :=
  match m with
  | MallocNull => None
  | MallocBlock junk => Some (replicate (Z.to_nat (bytes / SIZEOF_DOUBLE)) junk)
  end.

(** [p[i]] as an rvalue; [None] is undefined behaviour (null pointer or an
    index outside the block). *)
Definition load (p : option (list double)) (i : Z) : option double :=
  match p with
  | None => None
  | Some l => if 0 <=? i then l !! Z.to_nat i else None
  end.

(** [p[i] = v]; [None] is undefined behaviour. *)
Definition store (p : option (list double)) (i : Z) (v : double)
  : option (list double) :=
  match p with
  | None => None
  | Some l =>
      if (0 <=? i) && (i <? Z.of_nat (length l))
      then Some (<[Z.to_nat i := v]> l)
      else None
  end.

(** [a % b] on [size_t]; [None] is the undefined division by zero. *)
Definition size_rem (a b : Z) : option Z :=
  if b =? 0 then None else Some (a mod b).

(** A [void*] handle as the API sees it.  One channel is under study, so a
    handle is either null or points to that channel. *)
Inductive handle : Type :=
| NullHandle
| ChanHandle.

(** ** channel_create, lines 31-47 *)

(** What the environment answers during [channel_create]: whether the
    [malloc] of the struct succeeded, the return codes of the three
    initialisers (0 is success), and the result of the ring's [malloc]. *)
Record create_env : Type := mkCreateEnv {
  struct_alloc : bool;
  mutex_init : Z;
  cond_send_init : Z;
  cond_recv_init : Z;
  ring_alloc : malloc_result
}.

(** [None] is the null handle.  The return codes of [pthread_mutex_init]
    and [pthread_cond_init] are discarded (lines 35-37), and the ring
    pointer is stored as [malloc] returned it (line 39). *)
Definition channel_create (env : create_env) (cap : Z) : option Channel :=
  if negb (struct_alloc env) then None
  else
    Some {| buffer :=
              if 0 <? cap
              then malloc_doubles (wrap (cap * SIZEOF_DOUBLE)) (ring_alloc env)
              else None;
            read_idx := 0;
            write_idx := 0;
            count := 0;
            capacity := cap;
            closed := CHANNEL_OPEN |}.

(** ** Sections of channel_send, lines 51-115 *)

(** Where a thread inside [channel_send] stands between two sections. *)
Inductive send_pc : Type :=
| SendCall            (* called; next is the null test and the lock, l.52-55 *)
| SendWaitSpace       (* parked in pthread_cond_wait, line 66 *)
| SendWaitPrior       (* parked in pthread_cond_wait, line 88 *)
| SendWaitHandoff     (* parked in pthread_cond_wait, line 109 *)
| SendRet (r : Z).    (* returned r *)

(** What a section did to the queue of pending values. *)
Inductive action : Type :=
| Quiet
| Deposit (v : double)
| Take (v : double).

(** The outcome of a section: the channel it leaves behind, where the
    thread stands, and what it did.  [None] is undefined behaviour. *)
Definition outcome (P : Type) : Type := option (Channel * P * action).

Definition set_closed (ch : Channel) (c : Z) : Channel :=
  {| buffer := buffer ch; read_idx := read_idx ch; write_idx := write_idx ch;
     count := count ch; capacity := capacity ch; closed := c |}.

(** Lines 107-114: wait for the receiver, then unlock and return 0. *)
Definition send_handoff (ch : Channel) : outcome send_pc :=
  if (0 <? count ch) && (closed ch =? 0)
  then Some (ch, SendWaitHandoff, Quiet)
  else Some (ch, SendRet 0, Quiet).

(** Lines 92-110: the closed test after the first wait, the lazy
    allocation of the hand-off slot, the deposit, and the first test of the
    hand-off loop. *)
Definition send_unbuffered_deposit (ch : Channel) (v : double) (m : malloc_result)
  : outcome send_pc :=
  if negb (closed ch =? 0) then Some (ch, SendRet (-1), Quiet)
  else
    let p := match buffer ch with
             | None => malloc_doubles SIZEOF_DOUBLE m
             | Some l => Some l
             end in
    match store p 0 v with
    | None => None
    | Some p' =>
        match
          send_handoff {| buffer := Some p'; read_idx := read_idx ch;
                          write_idx := write_idx ch; count := 1;
                          capacity := capacity ch; closed := closed ch |}
        with
        | Some (ch', pc', _) => Some (ch', pc', Deposit v)
        | None => None
        end
    end.

(** Lines 87-89, entered at the loop test. *)
Definition send_prior_loop (ch : Channel) (v : double) (m : malloc_result)
  : outcome send_pc :=
  if (0 <? count ch) && (closed ch =? 0)
  then Some (ch, SendWaitPrior, Quiet)
  else send_unbuffered_deposit ch v m.

(** Lines 65-80 and 113-114, entered at the loop test. *)
Definition send_buffered (ch : Channel) (v : double) : outcome send_pc :=
  if (capacity ch <=? count ch) && (closed ch =? 0)
  then Some (ch, SendWaitSpace, Quiet)
  else if negb (closed ch =? 0) then Some (ch, SendRet (-1), Quiet)
  else
    match store (buffer ch) (write_idx ch) v,
          size_rem (wrap (write_idx ch + 1)) (capacity ch) with
    | Some p', Some w' =>
        Some ({| buffer := Some p'; read_idx := read_idx ch; write_idx := w';
                 count := wrap (count ch + 1); capacity := capacity ch;
                 closed := closed ch |},
              SendRet 0, Deposit v)
    | _, _ => None
    end.

(** Lines 55-64 and 85: after the lock. *)
Definition send_locked (ch : Channel) (v : double) (m : malloc_result)
  : outcome send_pc :=
  if negb (closed ch =? 0) then Some (ch, SendRet (-1), Quiet)
  else if 0 <? capacity ch then send_buffered ch v
  else if 0 <? count ch then send_prior_loop ch v m
  else send_unbuffered_deposit ch v m.

(** One section of [channel_send(h, v)], resumed at [pc].  [m] is what
    [malloc] would answer if line 99 runs.  A thread that has returned
    has no section left. *)
Definition channel_send (h : handle) (v : double) (m : malloc_result)
    (pc : send_pc) (ch : Channel) : outcome send_pc :=
  match pc with
  | SendCall =>
      match h with
      | NullHandle => Some (ch, SendRet (-1), Quiet)
      | ChanHandle => send_locked ch v m
      end
  | SendWaitSpace => send_buffered ch v
  | SendWaitPrior => send_prior_loop ch v m
  | SendWaitHandoff => send_handoff ch
  | SendRet r => Some (ch, SendRet r, Quiet)
  end.

(** ** Sections of channel_recv, lines 119-156 *)

Inductive recv_pc : Type :=
| RecvCall            (* called; next is the null test and the lock *)
| RecvWaitData        (* parked in pthread_cond_wait, line 127 *)
| RecvRet (v : double).

(** Lines 136-155: take the oldest value and return it. *)
Definition recv_dequeue (ch : Channel) : outcome recv_pc :=
  if 0 <? capacity ch then
    match load (buffer ch) (read_idx ch),
          size_rem (wrap (read_idx ch + 1)) (capacity ch) with
    | Some v, Some r' =>
        Some ({| buffer := buffer ch; read_idx := r'; write_idx := write_idx ch;
                 count := wrap (count ch - 1); capacity := capacity ch;
                 closed := closed ch |},
              RecvRet v, Take v)
    | _, _ => None
    end
  else
    match load (buffer ch) 0 with
    | Some v =>
        Some ({| buffer := buffer ch; read_idx := read_idx ch;
                 write_idx := write_idx ch; count := 0;
                 capacity := capacity ch; closed := closed ch |},
              RecvRet v, Take v)
    | None => None
    end.

(** Lines 126-155, entered at the loop test.  The return of line 133
    takes nothing from the queue ([Quiet]: the value is absent); the return
    of line 155 hands out the value it took ([Take]). *)
Definition recv_locked (ch : Channel) : outcome recv_pc :=
  if (count ch =? 0) && (closed ch =? 0)
  then Some (ch, RecvWaitData, Quiet)
  else if (count ch =? 0) && negb (closed ch =? 0)
  then Some (ch, RecvRet zero, Quiet)
  else recv_dequeue ch.

Definition channel_recv (h : handle) (pc : recv_pc) (ch : Channel)
  : outcome recv_pc :=
  match pc with
  | RecvCall =>
      match h with
      | NullHandle => Some (ch, RecvRet zero, Quiet)
      | ChanHandle => recv_locked ch
      end
  | RecvWaitData => recv_locked ch
  | RecvRet v => Some (ch, RecvRet v, Quiet)
  end.

(** ** channel_close, lines 160-173, and channel_is_closed, lines 193-202 *)

(** The whole of [channel_close] is one section. *)
Definition channel_close (h : handle) (ch : Channel) : Channel :=
  match h with
  | NullHandle => ch
  | ChanHandle => set_closed ch CHANNEL_CLOSED
  end.

Definition channel_is_closed (h : handle) (ch : Channel) : Z :=
  match h with
  | NullHandle => 1
  | ChanHandle => closed ch
  end.

(** ** Concurrent executions *)

(** A call in flight: its arguments and where its thread stands. *)
Inductive task : Type :=
| Send (h : handle) (v : double) (pc : send_pc)
| Recv (h : handle) (pc : recv_pc)
| Close (h : handle) (done : bool).

(** The calls a program makes on the channel. *)
Inductive call : Type :=
| CallSend (h : handle) (v : double)
| CallRecv (h : handle)
| CallClose (h : handle).

Definition start (c : call) : task :=
  match c with
  | CallSend h v => Send h v SendCall
  | CallRecv h => Recv h RecvCall
  | CallClose h => Close h false
  end.

(** The channel and the calls made on it, one per thread slot. *)
Record system : Type := mkSystem {
  chan : Channel;
  tasks : list task
}.

Definition boot (ch : Channel) (calls : list call) : system :=
  mkSystem ch (start <$> calls).

(** The next section of a task. *)
Definition task_section (m : malloc_result) (t : task) (ch : Channel)
  : outcome task :=
  match t with
  | Send h v pc =>
      match channel_send h v m pc ch with
      | Some (ch', pc', a) => Some (ch', Send h v pc', a)
      | None => None
      end
  | Recv h pc =>
      match channel_recv h pc ch with
      | Some (ch', pc', a) => Some (ch', Recv h pc', a)
      | None => None
      end
  | Close h false => Some (channel_close h ch, Close h true, Quiet)
  | Close h true => Some (ch, Close h true, Quiet)
  end.

(** Thread [i] wins the mutex and runs its next section.  An index without
    a task is a step that does nothing. *)
Definition step (i : nat) (m : malloc_result) (s : system)
  : option (system * action) :=
  match tasks s !! i with
  | None => Some (s, Quiet)
  | Some t =>
      match task_section m t (chan s) with
      | Some (ch', t', a) => Some (mkSystem ch' (<[i := t']> (tasks s)), a)
      | None => None
      end
  end.

(** A schedule names, section by section, the thread that runs and what
    [malloc] answers should the section call it. *)
Definition schedule : Type := list (nat * malloc_result).

(** Runs a schedule; the log lists what each section did, oldest first. *)
Fixpoint run (sched : schedule) (s : system)
  : option (system * list (nat * action)) :=
  match sched with
  | [] => Some (s, [])
  | (i, m) :: rest =>
      match step i m s with
      | None => None
      | Some (s', a) =>
          match run rest s' with
          | None => None
          | Some (s'', log) => Some (s'', (i, a) :: log)
          end
      end
  end.

(** The values deposited, in the order the depositing sections ran. *)
Definition deposits (log : list (nat * action)) : list double :=
  omap (fun e => match snd e with Deposit v => Some v | _ => None end) log.

(** The values handed to receivers, in the order the sections ran. *)
Definition takes (log : list (nat * action)) : list double :=
  omap (fun e => match snd e with Take v => Some v | _ => None end) log.

(** ** The queue a channel state stands for *)

(** The slot of the [k]-th pending value. *)
Definition slot (ch : Channel) (k : Z) : Z :=
  if capacity ch =? 0 then 0 else (read_idx ch + k) mod capacity ch.

(** The pending values, oldest first: [count] slots from [read_idx] on. *)
Definition contents (ch : Channel) : list double :=
  map (fun k => default zero (load (buffer ch) (slot ch (Z.of_nat k))))
      (seq 0 (Z.to_nat (count ch))).

(** The test of line 65 that makes a buffered send wait. *)
Definition ring_full (ch : Channel) : bool := capacity ch <=? count ch.

(** ** Invariants *)

(** The ring invariant of the specification. *)
Definition ring_inv (ch : Channel) : Prop :=
  (0 < capacity ch ->
     (write_idx ch - read_idx ch) mod capacity ch = count ch mod capacity ch
     /\ 0 <= count ch <= capacity ch
     /\ (ring_full ch = true <-> count ch = capacity ch))
  /\ (capacity ch = 0 -> 0 <= count ch <= 1).

(** What holds of the channel whenever no thread is inside a section. *)
Record chan_ok (ch : Channel) : Prop := mkChanOk {
  ok_capacity : 0 <= capacity ch < SIZE_MOD;
  ok_closed : closed ch = CHANNEL_OPEN \/ closed ch = CHANNEL_CLOSED;
  ok_count : 0 <= count ch;
  ok_buffered :
    0 < capacity ch ->
    0 <= read_idx ch < capacity ch /\ 0 <= write_idx ch < capacity ch
    /\ count ch <= capacity ch
    /\ write_idx ch = (read_idx ch + count ch) mod capacity ch;
  ok_unbuffered : capacity ch = 0 -> count ch <= 1;
  ok_pending :
    forall k, 0 <= k < count ch -> is_Some (load (buffer ch) (slot ch k))
}.

(** A parked thread stands in the branch that matches the capacity. *)
Definition pc_ok (cap : Z) (t : task) : Prop :=
  match t with
  | Send _ _ SendWaitSpace => 0 < cap
  | Send _ _ SendWaitPrior => cap = 0
  | Send _ _ SendWaitHandoff => cap = 0
  | _ => True
  end.

Record sys_ok (s : system) : Prop := mkSysOk {
  ok_chan : chan_ok (chan s);
  ok_tasks : Forall (pc_ok (capacity (chan s))) (tasks s)
}.

(** What a section may do to the channel, by the action it reports. *)
Definition effect (a : action) (ch ch' : Channel) : Prop :=
  capacity ch' = capacity ch /\
  match a with
  | Quiet =>
      ch' = ch \/ ch' = set_closed ch CHANNEL_CLOSED
  | Deposit v =>
      closed ch = CHANNEL_OPEN /\ closed ch' = CHANNEL_OPEN
      /\ contents ch' = contents ch ++ [v]
  | Take v =>
      closed ch' = closed ch /\ contents ch = v :: contents ch'
  end.

(** ** Further predicates *)

(** The memory the channel needs is there: a buffered channel owns a ring
    of [capacity] slots; an unbuffered one owns no block yet, or one with
    room for the hand-off slot. *)
Definition mem_ok (ch : Channel) : Prop :=
  match buffer ch with
  | Some l =>
      if capacity ch =? 0 then (0 < length l)%nat
      else Z.of_nat (length l) = capacity ch
  | None => capacity ch = 0
  end.

(** Every [malloc] the schedule answers succeeds. *)
Definition allocs_succeed (sched : schedule) : Prop :=
  Forall (fun e => snd e <> MallocNull) sched.

(** The call a task belongs to. *)
Definition call_of (t : task) : call :=
  match t with
  | Send h v _ => CallSend h v
  | Recv h _ => CallRecv h
  | Close h _ => CallClose h
  end.

(** The call has returned to its caller. *)
Definition returned (t : task) : Prop :=
  match t with
  | Send _ _ (SendRet _) => True
  | Recv _ (RecvRet _) => True
  | Close _ true => True
  | _ => False
  end.

(** The send has put its value into the slot or the ring. *)
Definition deposited (pc : send_pc) : Prop :=
  pc = SendWaitHandoff \/ pc = SendRet 0.

(** The condition under which the specification wants [channel_create] to
    fail: some memory cannot be obtained, or an initialiser fails. *)
Definition create_failure (env : create_env) (cap : Z) : Prop :=
  struct_alloc env = false
  \/ (0 < cap /\ ring_alloc env = MallocNull)
  \/ mutex_init env <> 0
  \/ cond_send_init env <> 0
  \/ cond_recv_init env <> 0.

(** ** channel_destroy, lines 176-190 *)



(** ** Reading a log *)

(** The threads whose sections deposited, and those whose sections took. *)
Definition depositors (log : list (nat * action)) : list nat :=
  omap (fun e => match snd e with Deposit _ => Some (fst e) | _ => None end) log.

Definition takers (log : list (nat * action)) : list nat :=
  omap (fun e => match snd e with Take _ => Some (fst e) | _ => None end) log.

(** A send that has neither deposited nor returned. *)
Definition undeposited (pc : send_pc) : Prop :=
  pc = SendCall \/ pc = SendWaitSpace \/ pc = SendWaitPrior.

(** What a send returns when the first section it runs finds the channel
    closed: 0 from the hand-off wait, -1 from everywhere else. *)
Definition closed_status (pc : send_pc) : Z :=
  match pc with
  | SendWaitHandoff => 0
  | SendRet r => r
  | _ => -1
  end.

(** The largest number of [double] slots whose size in bytes fits
    [size_t]: [2^64 / 8]. *)
Definition RING_LIMIT : Z := 2 ^ 61.

(** ** One thread sending, then receiving *)

(** The threads [from], [from + 1], ..., [from + n - 1] run one section
    each, in that order. *)
Definition turns (from n : nat) (m : malloc_result) : schedule :=
  map (fun i => (i, m)) (seq from n).

(** A program that sends the values [vs] in order and then receives as
    many values, one call after the other. *)
Definition sequential_calls (vs : list double) : list call :=
  (CallSend ChanHandle <$> vs) ++ ((fun _ => CallRecv ChanHandle) <$> vs).

(** Each call of [sequential_calls] runs when the one before has
    returned: [n] sends, then [n] receives. *)
Definition sequential_schedule (n : nat) (m : malloc_result) : schedule :=
  turns 0 n m ++ turns n n m.

(** ** Concrete executions used as examples *)

(** Every allocation and initialisation of [channel_create] succeeds. *)
Definition env_good : create_env :=
  mkCreateEnv true 0 0 0 (MallocBlock 0%float).

(** [pthread_mutex_init] fails with [ENOMEM] (12); the allocations succeed. *)
Definition env_mutex_fails : create_env :=
  mkCreateEnv true 12 0 0 (MallocBlock 0%float).

Definition fresh_block : malloc_result := MallocBlock 0%float.

(** The channel [channel_create(cap)] returns when all goes well. *)
Definition created (cap : Z) : Channel :=
  {| buffer := if 0 <? cap
               then malloc_doubles (wrap (cap * SIZEOF_DOUBLE)) fresh_block
               else None;
     read_idx := 0; write_idx := 0; count := 0; capacity := cap;
     closed := CHANNEL_OPEN |}.

(** Scenario S3: [create(2)]; send 7.0 and 8.0; close; a late send of 9.0;
    three receives. *)
Definition calls_s3 : list call :=
  [CallSend ChanHandle 7%float; CallSend ChanHandle 8%float;
   CallClose ChanHandle; CallRecv ChanHandle; CallRecv ChanHandle;
   CallRecv ChanHandle; CallSend ChanHandle 9%float].

Definition sched_s3_before : schedule :=
  [(0%nat, fresh_block); (1%nat, fresh_block); (2%nat, fresh_block)].

Definition sched_s3_after : schedule :=
  [(6%nat, fresh_block); (3%nat, fresh_block); (4%nat, fresh_block);
   (5%nat, fresh_block)].

(** The channel of S3 just before the close. *)
Definition chan_s3_open : Channel :=
  {| buffer := Some [7%float; 8%float]; read_idx := 0; write_idx := 0;
     count := 2; capacity := 2; closed := CHANNEL_OPEN |}.

(** The state of S3 right after the close. *)
Definition sys_s3_closed : system :=
  {| chan := {| buffer := Some [7%float; 8%float]; read_idx := 0;
                write_idx := 0; count := 2; capacity := 2;
                closed := CHANNEL_CLOSED |};
     tasks := [Send ChanHandle 7%float (SendRet 0);
               Send ChanHandle 8%float (SendRet 0);
               Close ChanHandle true; Recv ChanHandle RecvCall;
               Recv ChanHandle RecvCall; Recv ChanHandle RecvCall;
               Send ChanHandle 9%float SendCall] |}.

Definition log_s3_before : list (nat * action) :=
  [(0%nat, Deposit 7%float); (1%nat, Deposit 8%float); (2%nat, Quiet)].

(** S3 after the late send has been turned away. *)
Definition sys_s3_late : system :=
  {| chan := chan sys_s3_closed;
     tasks := <[6%nat := Send ChanHandle 9%float (SendRet (-1))]>
                (tasks sys_s3_closed) |}.

(** Scenario S5, and the close race: an unbuffered send of 42.0 with a
    receiver, and with a close instead of a receiver. *)
Definition calls_s5 : list call :=
  [CallSend ChanHandle 42%float; CallRecv ChanHandle].

Definition sched_s5 : schedule :=
  [(1%nat, fresh_block); (0%nat, fresh_block); (1%nat, fresh_block);
   (0%nat, fresh_block)].

Definition calls_close_race : list call :=
  [CallSend ChanHandle 42%float; CallClose ChanHandle].

Definition sched_close_race : schedule :=
  [(0%nat, fresh_block); (1%nat, MallocNull); (0%nat, MallocNull)].

(** Scenario S1: [create(4)]; sends of 1.0, 2.0, 3.0; three receives. *)
Definition calls_s1 : list call :=
  [CallSend ChanHandle 1%float; CallSend ChanHandle 2%float;
   CallSend ChanHandle 3%float; CallRecv ChanHandle; CallRecv ChanHandle;
   CallRecv ChanHandle].

(** The first receiver arrives early and parks; the rest run in turn. *)
Definition sched_s1 : schedule :=
  [(3%nat, fresh_block); (0%nat, fresh_block); (1%nat, fresh_block);
   (3%nat, fresh_block); (2%nat, fresh_block); (4%nat, fresh_block);
   (5%nat, fresh_block)].

(** Where S1 ends. *)
Definition sys_s1_final : system :=
  {| chan := {| buffer := Some [1%float; 2%float; 3%float; 0%float];
                read_idx := 3; write_idx := 3; count := 0; capacity := 4;
                closed := CHANNEL_OPEN |};
     tasks := [Send ChanHandle 1%float (SendRet 0);
               Send ChanHandle 2%float (SendRet 0);
               Send ChanHandle 3%float (SendRet 0);
               Recv ChanHandle (RecvRet 1%float);
               Recv ChanHandle (RecvRet 2%float);
               Recv ChanHandle (RecvRet 3%float)] |}.

Definition log_s1 : list (nat * action) :=
  [(3%nat, Quiet); (0%nat, Deposit 1%float); (1%nat, Deposit 2%float);
   (3%nat, Take 1%float); (2%nat, Deposit 3%float); (4%nat, Take 2%float);
   (5%nat, Take 3%float)].

(** Where S3 ends: both values delivered, the third receive got 0.0, the
    late send got -1. *)
Definition sys_s3_final : system :=
  {| chan := {| buffer := Some [7%float; 8%float]; read_idx := 0;
                write_idx := 0; count := 0; capacity := 2;
                closed := CHANNEL_CLOSED |};
     tasks := [Send ChanHandle 7%float (SendRet 0);
               Send ChanHandle 8%float (SendRet 0);
               Close ChanHandle true;
               Recv ChanHandle (RecvRet 7%float);
               Recv ChanHandle (RecvRet 8%float);
               Recv ChanHandle (RecvRet 0%float);
               Send ChanHandle 9%float (SendRet (-1))] |}.

Definition log_s3_after : list (nat * action) :=
  [(6%nat, Quiet); (3%nat, Take 7%float); (4%nat, Take 8%float);
   (5%nat, Quiet)].

(** Where S5 ends. *)
Definition sys_s5_final : system :=
  {| chan := {| buffer := Some [42%float]; read_idx := 0; write_idx := 0;
                count := 0; capacity := 0; closed := CHANNEL_OPEN |};
     tasks := [Send ChanHandle 42%float (SendRet 0);
               Recv ChanHandle (RecvRet 42%float)] |}.

Definition log_s5 : list (nat * action) :=
  [(1%nat, Quiet); (0%nat, Deposit 42%float); (1%nat, Take 42%float);
   (0%nat, Quiet)].

(** Where the close race ends: the send has returned 0, the value is
    still in the slot. *)
Definition sys_close_race_final : system :=
  {| chan := {| buffer := Some [42%float]; read_idx := 0; write_idx := 0;
                count := 1; capacity := 0; closed := CHANNEL_CLOSED |};
     tasks := [Send ChanHandle 42%float (SendRet 0); Close ChanHandle true] |}.

Definition log_close_race : list (nat * action) :=
  [(0%nat, Deposit 42%float); (1%nat, Quiet); (0%nat, Quiet)].

(** Scenario S4: [create(1)]; a send of 1.0; a send of 2.0 that parks for
    space; a close; the parked sender runs again; two receives. *)
Definition calls_s4 : list call :=
  [CallSend ChanHandle 1%float; CallSend ChanHandle 2%float;
   CallClose ChanHandle; CallRecv ChanHandle; CallRecv ChanHandle].

Definition sched_s4_before : schedule :=
  [(0%nat, fresh_block); (1%nat, fresh_block); (2%nat, fresh_block)].

Definition sched_s4_after : schedule :=
  [(1%nat, fresh_block); (3%nat, fresh_block); (4%nat, fresh_block)].

(** S4 right after the close: the second sender is parked at line 66. *)
Definition sys_s4_closed : system :=
  {| chan := {| buffer := Some [1%float]; read_idx := 0; write_idx := 0;
                count := 1; capacity := 1; closed := CHANNEL_CLOSED |};
     tasks := [Send ChanHandle 1%float (SendRet 0);
               Send ChanHandle 2%float SendWaitSpace;
               Close ChanHandle true; Recv ChanHandle RecvCall;
               Recv ChanHandle RecvCall] |}.

Definition log_s4_before : list (nat * action) :=
  [(0%nat, Deposit 1%float); (1%nat, Quiet); (2%nat, Quiet)].

(** Where S4 ends: the parked send got -1, and 2.0 was never in the ring. *)
Definition sys_s4_final : system :=
  {| chan := {| buffer := Some [1%float]; read_idx := 0; write_idx := 0;
                count := 0; capacity := 1; closed := CHANNEL_CLOSED |};
     tasks := [Send ChanHandle 1%float (SendRet 0);
               Send ChanHandle 2%float (SendRet (-1));
               Close ChanHandle true; Recv ChanHandle (RecvRet 1%float);
               Recv ChanHandle (RecvRet 0%float)] |}.

Definition log_s4_after : list (nat * action) :=
  [(1%nat, Quiet); (3%nat, Take 1%float); (4%nat, Quiet)].

(** The struct is allocated, the [malloc] of the ring returns null. *)
Definition env_ring_fails : create_env :=
  mkCreateEnv true 0 0 0 MallocNull.

(** * Proofs *)

(** ** Arithmetic of the ring *)

Ltac cases :=
  repeat match goal with
  | |- context [Z.ltb ?a ?b] => destruct (Z.ltb_spec a b)
  | |- context [Z.leb ?a ?b] => destruct (Z.leb_spec a b)
  | |- context [Z.eqb ?a ?b] => destruct (Z.eqb_spec a b)
  | H : context [Z.ltb ?a ?b] |- _ => destruct (Z.ltb_spec a b)
  | H : context [Z.leb ?a ?b] |- _ => destruct (Z.leb_spec a b)
  | H : context [Z.eqb ?a ?b] |- _ => destruct (Z.eqb_spec a b)
  end; simpl in *.

Lemma wrap_small z : 0 <= z < SIZE_MOD -> wrap z = z.
Proof. intros. unfold wrap. now apply Z.mod_small. Qed.

Lemma slot_next cap r k :
  0 < cap -> ((r + 1) mod cap + k) mod cap = (r + (k + 1)) mod cap.
Proof.
  intros. rewrite Z.add_mod_idemp_l by lia. f_equal. lia.
Qed.

Lemma slot_apart cap r k n :
  0 < cap -> 0 <= r < cap -> 0 <= k < n -> n < cap ->
  (r + k) mod cap <> (r + n) mod cap.
Proof.
  intros Hc Hr Hk Hn E.
  assert (D : ((r + n) - (r + k)) mod cap = 0).
  { rewrite Zminus_mod, E, Z.sub_diag. now apply Z.mod_0_l; lia. }
  replace (r + n - (r + k)) with (n - k) in D by lia.
  rewrite Z.mod_small in D by lia. lia.
Qed.

Lemma ring_distance cap r w n :
  0 < cap -> 0 <= r < cap -> w = (r + n) mod cap ->
  (w - r) mod cap = n mod cap.
Proof.
  intros Hc Hr ->. rewrite Zminus_mod_idemp_l. f_equal. lia.
Qed.

(** ** Memory lemmas *)

#[global] Arguments load : simpl never.
#[global] Arguments store : simpl never.
#[global] Arguments slot : simpl never.
#[global] Arguments contents : simpl never.
#[global] Arguments wrap : simpl never.

Lemma store_inv p i v p' :
  store p i v = Some p' ->
  exists l, p = Some l /\ 0 <= i < Z.of_nat (length l)
            /\ p' = <[Z.to_nat i := v]> l.
Proof.
  unfold store. destruct p as [l|]; [|discriminate].
  intros H. cases; try discriminate. injection H as <-.
  exists l. repeat split; auto; lia.
Qed.

Lemma load_store_same p i v p' :
  store p i v = Some p' -> load (Some p') i = Some v.
Proof.
  intros (l & -> & Hi & ->)%store_inv. unfold load.
  cases; [|lia]. apply list_lookup_insert_eq. lia.
Qed.

Lemma load_store_other p i j v p' :
  store p i v = Some p' -> 0 <= j -> j <> i -> load (Some p') j = load p j.
Proof.
  intros (l & -> & Hi & ->)%store_inv Hj Hne. unfold load.
  cases; [|reflexivity]. apply list_lookup_insert_ne. lia.
Qed.

Lemma store_block_ok l v :
  (0 < length l)%nat -> store (Some l) 0 v = Some (<[0%nat := v]> l).
Proof.
  intros H. unfold store. cases; try reflexivity; lia.
Qed.

(** ** The queue under a deposit and under a take *)

Lemma contents_length ch : length (contents ch) = Z.to_nat (count ch).
Proof. unfold contents. now rewrite length_map, length_seq. Qed.

Lemma contents_same_queue ch ch' :
  buffer ch' = buffer ch -> read_idx ch' = read_idx ch ->
  count ch' = count ch -> capacity ch' = capacity ch ->
  contents ch' = contents ch.
Proof.
  intros Hb Hr Hn Hc. unfold contents, slot. now rewrite Hb, Hr, Hn, Hc.
Qed.

Lemma contents_set_closed ch c : contents (set_closed ch c) = contents ch.
Proof. now apply contents_same_queue. Qed.

Lemma contents_snoc ch ch' p' v :
  0 <= count ch ->
  buffer ch' = Some p' -> read_idx ch' = read_idx ch ->
  capacity ch' = capacity ch -> count ch' = count ch + 1 ->
  load (Some p') (slot ch (count ch)) = Some v ->
  (forall k, 0 <= k < count ch ->
     load (Some p') (slot ch k) = load (buffer ch) (slot ch k)) ->
  contents ch' = contents ch ++ [v].
Proof.
  intros Hn Hb Hr Hc Hn' Hlast Hkeep. unfold contents.
  rewrite Hn', Z2Nat.inj_add, Nat.add_1_r, seq_S, map_app by lia.
  simpl. f_equal.
  - apply map_ext_in. intros k Hk%in_seq.
    unfold slot at 1. rewrite Hb, Hr, Hc. fold (slot ch (Z.of_nat k)).
    rewrite Hkeep by lia. reflexivity.
  - unfold slot at 1. rewrite Hb, Hr, Hc. fold (slot ch (Z.of_nat (Z.to_nat (count ch)))).
    rewrite Z2Nat.id by lia. now rewrite Hlast.
Qed.

Lemma contents_uncons ch ch' v :
  0 < count ch ->
  buffer ch' = buffer ch -> capacity ch' = capacity ch ->
  count ch' = count ch - 1 ->
  load (buffer ch) (slot ch 0) = Some v ->
  (forall k, 0 <= k -> slot ch' k = slot ch (k + 1)) ->
  contents ch = v :: contents ch'.
Proof.
  intros Hn Hb Hc Hn' Hfirst Hshift. unfold contents.
  replace (Z.to_nat (count ch)) with (S (Z.to_nat (count ch'))) by lia.
  rewrite <- cons_seq. cbn [map]. rewrite <- seq_shift, map_map, Hb.
  change (Z.of_nat 0) with 0. rewrite Hfirst. simpl. f_equal.
  apply map_ext. intros k. rewrite Hshift by lia.
  do 3 f_equal. lia.
Qed.

(** ** Sections keep the invariant *)

Lemma effect_refl ch : effect Quiet ch ch.
Proof. split; auto. Qed.

Lemma slot_buffered ch k :
  0 < capacity ch -> slot ch k = (read_idx ch + k) mod capacity ch.
Proof. intros H. unfold slot. cases; [lia | reflexivity]. Qed.

Lemma slot_same ch' ch k :
  capacity ch' = capacity ch -> read_idx ch' = read_idx ch ->
  slot ch' k = slot ch k.
Proof. intros Hc Hr. unfold slot. now rewrite Hc, Hr. Qed.

Lemma slot_unbuffered ch k : capacity ch = 0 -> slot ch k = 0.
Proof. intros H. unfold slot. cases; [reflexivity | lia]. Qed.

(** A section that leaves the channel as it found it. *)
Ltac unchanged :=
  split; [assumption | split; [apply effect_refl | simpl; eauto]].

Lemma send_handoff_sound ch ch' pc' a :
  send_handoff ch = Some (ch', pc', a) ->
  ch' = ch /\ a = Quiet /\ (pc' = SendWaitHandoff \/ pc' = SendRet 0).
Proof.
  unfold send_handoff. intros H.
  destruct ((0 <? count ch) && (closed ch =? 0)); injection H as <- <- <-; auto.
Qed.

Lemma send_buffered_sound ch v ch' pc' a :
  chan_ok ch -> 0 < capacity ch ->
  send_buffered ch v = Some (ch', pc', a) ->
  chan_ok ch' /\ effect a ch ch'
  /\ (pc' = SendWaitSpace \/ exists r, pc' = SendRet r).
Proof.
  intros Hok Hcap. unfold send_buffered.
  pose proof Hok as [Hc Hcl Hn Hbuf _ Hpend].
  destruct (Hbuf Hcap) as (Hr & Hw & Hle & Hwr).
  destruct (Z.leb_spec (capacity ch) (count ch)) as [Hfull|Hroom];
    destruct (Z.eqb_spec (closed ch) 0) as [Hopen|Hshut]; simpl.
  - intros [= <- <- <-]. unchanged.
  - intros [= <- <- <-]. unchanged.
  - destruct (store (buffer ch) (write_idx ch) v) as [p'|] eqn:Hst; [|discriminate].
    unfold size_rem. destruct (Z.eqb_spec (capacity ch) 0); [lia|].
    intros [= <- <- <-].
    assert (Hw1 : wrap (write_idx ch + 1) = write_idx ch + 1)
      by (apply wrap_small; lia).
    assert (Hn1 : wrap (count ch + 1) = count ch + 1)
      by (apply wrap_small; lia).
    rewrite Hw1, Hn1.
    assert (Hkeep : forall k, 0 <= k < count ch ->
              load (Some p') (slot ch k) = load (buffer ch) (slot ch k)).
    { intros k Hk. rewrite slot_buffered by lia.
      apply (load_store_other _ _ _ _ _ Hst).
      - apply Z.mod_pos_bound; lia.
      - rewrite Hwr. apply slot_apart; lia. }
    assert (Hlast : load (Some p') (slot ch (count ch)) = Some v).
    { rewrite slot_buffered, <- Hwr by lia. apply (load_store_same _ _ _ _ Hst). }
    split; [|split; [|eauto]].
    + constructor; simpl; auto; try lia.
      * intros _. repeat split; try lia.
        -- apply Z.mod_pos_bound; lia.
        -- apply Z.mod_pos_bound; lia.
        -- rewrite Hwr, Z.add_mod_idemp_l by lia. f_equal. lia.
      * intros k Hk. rewrite (slot_same _ ch) by reflexivity. cbn [buffer].
        destruct (Z.eq_dec k (count ch)) as [->|Hne].
        -- rewrite Hlast. eauto.
        -- rewrite Hkeep by lia. apply Hpend. lia.
    + split; [reflexivity|]. simpl. repeat split; auto.
      apply contents_snoc with (p' := p'); auto.
  - intros [= <- <- <-]. unchanged.
Qed.

Lemma send_unbuffered_deposit_sound ch v m ch' pc' a :
  chan_ok ch -> capacity ch = 0 -> (closed ch = 0 -> count ch = 0) ->
  send_unbuffered_deposit ch v m = Some (ch', pc', a) ->
  chan_ok ch' /\ effect a ch ch'
  /\ (pc' = SendWaitHandoff \/ exists r, pc' = SendRet r).
Proof.
  intros Hok Hcap Hempty. unfold send_unbuffered_deposit.
  pose proof Hok as [Hc Hcl Hn Hbuf Hunb Hpend].
  destruct (Z.eqb_spec (closed ch) 0) as [Hopen|Hshut]; simpl.
  - set (p := match buffer ch with
              | Some l => Some l
              | None => malloc_doubles SIZEOF_DOUBLE m
              end).
    destruct (store p 0 v) as [p'|] eqn:Hst; [|discriminate].
    destruct (send_handoff _) as [[[c q] b]|] eqn:Hh; [|discriminate].
    apply send_handoff_sound in Hh as (-> & -> & Hq).
    intros [= <- <- <-].
    pose proof (load_store_same _ _ _ _ Hst) as Hlast.
    split; [|split].
    + constructor; simpl; auto; try lia.
      intros k Hk. rewrite slot_unbuffered by assumption. cbn [buffer].
      rewrite Hlast. eauto.
    + split; [reflexivity|]. simpl. repeat split; auto.
      apply contents_snoc with (p' := p'); simpl; auto; try lia.
      now rewrite slot_unbuffered.
    + destruct Hq as [->| ->]; eauto.
  - intros [= <- <- <-]. unchanged.
Qed.

Lemma send_prior_loop_sound ch v m ch' pc' a :
  chan_ok ch -> capacity ch = 0 ->
  send_prior_loop ch v m = Some (ch', pc', a) ->
  chan_ok ch' /\ effect a ch ch'
  /\ (pc' = SendWaitPrior \/ pc' = SendWaitHandoff \/ exists r, pc' = SendRet r).
Proof.
  intros Hok Hcap. unfold send_prior_loop.
  destruct (Z.ltb_spec 0 (count ch)) as [Hbusy|Hfree];
    destruct (Z.eqb_spec (closed ch) 0) as [Hopen|Hshut]; simpl.
  - intros [= <- <- <-]. unchanged.
  - intros H. apply send_unbuffered_deposit_sound in H as (? & ? & [?|?]);
      auto; tauto.
  - intros H. apply send_unbuffered_deposit_sound in H as (? & ? & [?|?]);
      auto. intros _. pose proof (ok_count _ Hok). lia.
  - intros H. apply send_unbuffered_deposit_sound in H as (? & ? & [?|?]);
      auto; tauto.
Qed.

Ltac done_section := (split; [|split]); simpl; auto.

Lemma channel_send_sound h v m pc ch ch' pc' a :
  chan_ok ch -> pc_ok (capacity ch) (Send h v pc) ->
  channel_send h v m pc ch = Some (ch', pc', a) ->
  chan_ok ch' /\ effect a ch ch' /\ pc_ok (capacity ch) (Send h v pc').
Proof.
  intros Hok Hpc. destruct pc; simpl in *.
  - destruct h.
    + intros [= <- <- <-]. unchanged.
    + unfold send_locked.
      destruct (Z.eqb_spec (closed ch) 0) as [Hopen|Hshut]; simpl.
      * destruct (Z.ltb_spec 0 (capacity ch)) as [Hb|Hu].
        -- intros H. apply send_buffered_sound in H as (? & ? & [->|[r ->]]);
             auto; done_section.
        -- assert (Hcap : capacity ch = 0)
             by (pose proof (ok_capacity _ Hok); lia).
           destruct (Z.ltb_spec 0 (count ch)) as [Hbusy|Hfree].
           ++ intros H.
              apply send_prior_loop_sound in H as (? & ? & [->|[->|[r ->]]]);
                auto; done_section.
           ++ intros H.
              apply send_unbuffered_deposit_sound in H as (? & ? & [->|[r ->]]);
                auto; try done_section.
              intros _. pose proof (ok_count _ Hok). lia.
      * intros [= <- <- <-]. unchanged.
  - intros H. apply send_buffered_sound in H as (? & ? & [->|[r ->]]);
      auto; done_section.
  - intros H. apply send_prior_loop_sound in H as (? & ? & [->|[->|[r ->]]]);
      auto; done_section.
  - intros H. apply send_handoff_sound in H as (-> & -> & [->| ->]);
      unchanged.
  - intros [= <- <- <-]. unchanged.
Qed.

Lemma recv_dequeue_sound ch ch' pc' a :
  chan_ok ch -> count ch <> 0 -> recv_dequeue ch = Some (ch', pc', a) ->
  chan_ok ch' /\ effect a ch ch' /\ exists v, pc' = RecvRet v /\ a = Take v.
Proof.
  intros Hok Hsome. unfold recv_dequeue.
  pose proof Hok as [Hc Hcl Hn Hbuf Hunb Hpend].
  destruct (Z.ltb_spec 0 (capacity ch)) as [Hb|Hu].
  - destruct (Hbuf Hb) as (Hr & Hw & Hle & Hwr).
    destruct (load (buffer ch) (read_idx ch)) as [v|] eqn:Hld; [|discriminate].
    unfold size_rem. destruct (Z.eqb_spec (capacity ch) 0); [lia|].
    intros [= <- <- <-].
    rewrite (wrap_small (read_idx ch + 1)), (wrap_small (count ch - 1)) by lia.
    assert (Hshift : forall c k, capacity c = capacity ch ->
              read_idx c = (read_idx ch + 1) mod capacity ch ->
              slot c k = slot ch (k + 1)).
    { intros c k Hcc Hrc. rewrite !slot_buffered by lia.
      rewrite Hcc, Hrc. apply slot_next; lia. }
    split; [|split; [|eauto]].
    + constructor; simpl; auto; try lia.
      * intros _. repeat split; try lia; try (apply Z.mod_pos_bound; lia).
        rewrite Hwr, Z.add_mod_idemp_l by lia. f_equal. lia.
      * intros k Hk. rewrite Hshift by reflexivity. apply Hpend. lia.
    + split; [reflexivity|]. simpl. split; [reflexivity|].
      apply contents_uncons; simpl; auto; try lia.
      rewrite slot_buffered, Z.add_0_r, Z.mod_small by lia. exact Hld.
  - assert (Hcap : capacity ch = 0) by lia.
    destruct (load (buffer ch) 0) as [v|] eqn:Hld; [|discriminate].
    intros [= <- <- <-]. split; [|split; [|eauto]].
    + constructor; simpl; auto; try lia.
    + split; [reflexivity|]. simpl. split; [reflexivity|].
      apply contents_uncons; simpl; auto; try lia.
      * now rewrite slot_unbuffered.
      * intros k _. now rewrite !slot_unbuffered.
Qed.

Lemma recv_locked_sound ch ch' pc' a :
  chan_ok ch -> recv_locked ch = Some (ch', pc', a) ->
  chan_ok ch' /\ effect a ch ch'.
Proof.
  intros Hok. unfold recv_locked.
  destruct (Z.eqb_spec (count ch) 0) as [Hnone|Hsome];
    destruct (Z.eqb_spec (closed ch) 0) as [Hopen|Hshut]; simpl;
    try (intros [= <- <- <-]; split; [assumption | apply effect_refl]);
    intros H; apply recv_dequeue_sound in H as (? & ? & _); auto.
Qed.

Lemma chan_ok_set_closed ch : chan_ok ch -> chan_ok (set_closed ch CHANNEL_CLOSED).
Proof.
  intros [Hc Hcl Hn Hbuf Hunb Hpend]. constructor; simpl; auto.
Qed.

Lemma channel_close_sound h ch :
  chan_ok ch -> chan_ok (channel_close h ch) /\ effect Quiet ch (channel_close h ch).
Proof.
  intros Hok. destruct h; simpl.
  - split; [assumption | apply effect_refl].
  - split; [now apply chan_ok_set_closed|]. split; simpl; auto.
Qed.

Lemma task_section_sound m t ch ch' t' a :
  chan_ok ch -> pc_ok (capacity ch) t ->
  task_section m t ch = Some (ch', t', a) ->
  chan_ok ch' /\ effect a ch ch' /\ pc_ok (capacity ch) t'.
Proof.
  intros Hok Hpc. destruct t as [h v pc|h pc|h [|]]; simpl.
  - destruct (channel_send h v m pc ch) as [[[c q] b]|] eqn:Hs; [|discriminate].
    intros [= <- <- <-]. now apply channel_send_sound in Hs.
  - destruct (channel_recv h pc ch) as [[[c q] b]|] eqn:Hs; [|discriminate].
    intros [= <- <- <-].
    assert (chan_ok c /\ effect b ch c) as [? ?]; [|done_section].
    destruct pc; simpl in Hs.
    + destruct h; [|now apply (recv_locked_sound _ _ _ _ Hok Hs)].
      injection Hs as <- <- <-. split; [assumption | apply effect_refl].
    + now apply (recv_locked_sound _ _ _ _ Hok Hs).
    + injection Hs as <- <- <-. split; [assumption | apply effect_refl].
  - intros [= <- <- <-]. unchanged.
  - intros [= <- <- <-]. destruct (channel_close_sound h ch Hok). done_section.
Qed.

Lemma step_sound i m s s' a :
  sys_ok s -> step i m s = Some (s', a) ->
  sys_ok s' /\ effect a (chan s) (chan s').
Proof.
  intros [Hch Hts]. unfold step.
  destruct (tasks s !! i) as [t|] eqn:Hi.
  - destruct (task_section m t (chan s)) as [[[c t'] b]|] eqn:Hs; [|discriminate].
    intros [= <- <-].
    apply task_section_sound in Hs as (Hc & He & Hp); auto.
    + split; [|assumption]. destruct He as [Hcap _].
      constructor; simpl; [assumption|]. rewrite Hcap.
      now apply Forall_insert.
    + eapply Forall_lookup_1; eauto.
  - intros [= <- <-]. split; [now constructor | apply effect_refl].
Qed.

(** Along a run the invariant holds, the capacity stays, and the queue
    evolves as a FIFO: what was pending plus what was deposited is what
    was taken plus what is pending. *)
Lemma run_sound sched : forall s s' log,
  sys_ok s -> run sched s = Some (s', log) ->
  sys_ok s'
  /\ capacity (chan s') = capacity (chan s)
  /\ contents (chan s) ++ deposits log = takes log ++ contents (chan s').
Proof.
  induction sched as [|[i m] rest IH]; intros s s' log Hok; simpl.
  - intros [= <- <-]. simpl. rewrite app_nil_r. auto.
  - destruct (step i m s) as [[s1 a]|] eqn:Hst; [|discriminate].
    destruct (run rest s1) as [[s2 log']|] eqn:Hrun; [|discriminate].
    intros [= <- <-].
    apply step_sound in Hst as (Hok1 & Hcap & Heff); auto.
    apply IH in Hrun as (Hok2 & Hcap2 & Hq); auto.
    split; [assumption|]. split; [congruence|].
    unfold deposits, takes in *. destruct a as [|v|v]; simpl.
    + destruct Heff as [E|E]; rewrite E in Hq; [assumption|].
      now rewrite contents_set_closed in Hq.
    + destruct Heff as (_ & _ & E). rewrite E in Hq.
      now rewrite <- app_assoc in Hq.
    + destruct Heff as (_ & E). rewrite E. simpl. now f_equal.
Qed.

Lemma channel_create_ok env cap ch :
  0 <= cap < SIZE_MOD -> channel_create env cap = Some ch -> chan_ok ch.
Proof.
  intros Hcap. unfold channel_create.
  destruct (struct_alloc env); [|discriminate]. simpl.
  intros [= <-]. constructor; simpl; auto; try lia.
  intros Hpos. rewrite Z.mod_0_l by lia. lia.
Qed.

Lemma boot_ok ch calls : chan_ok ch -> sys_ok (boot ch calls).
Proof.
  intros Hok. constructor; [assumption|]. simpl.
  apply Forall_fmap, Forall_true. intros []; exact I.
Qed.

(** ** Absence of undefined behaviour *)

Lemma send_handoff_defined ch :
  exists pc', send_handoff ch = Some (ch, pc', Quiet).
Proof.
  unfold send_handoff.
  destruct ((0 <? count ch) && (closed ch =? 0)); eauto.
Qed.

Lemma send_buffered_defined ch v :
  chan_ok ch -> mem_ok ch -> 0 < capacity ch ->
  exists ch' pc' a, send_buffered ch v = Some (ch', pc', a) /\ mem_ok ch'.
Proof.
  intros Hok Hmem Hcap. unfold send_buffered.
  destruct ((capacity ch <=? count ch) && (closed ch =? 0)); [eauto 6|].
  destruct (negb (closed ch =? 0)); [eauto 6|].
  destruct (ok_buffered _ Hok Hcap) as (_ & Hw & _).
  unfold mem_ok in Hmem. destruct (buffer ch) as [l|] eqn:Hb; [|lia].
  destruct (Z.eqb_spec (capacity ch) 0) as [|Hne]; [lia|].
  unfold store, size_rem.
  destruct (Z.leb_spec 0 (write_idx ch)); [|lia].
  destruct (Z.ltb_spec (write_idx ch) (Z.of_nat (length l))); [|lia].
  destruct (Z.eqb_spec (capacity ch) 0); [lia|]. simpl.
  do 3 eexists. split; [reflexivity|].
  unfold mem_ok. simpl. rewrite length_insert.
  destruct (Z.eqb_spec (capacity ch) 0); [lia | assumption].
Qed.

Lemma send_unbuffered_deposit_defined ch v m :
  mem_ok ch -> capacity ch = 0 -> m <> MallocNull ->
  exists ch' pc' a,
    send_unbuffered_deposit ch v m = Some (ch', pc', a) /\ mem_ok ch'.
Proof.
  intros Hmem Hcap Hm. unfold send_unbuffered_deposit.
  destruct (negb (closed ch =? 0)); [eauto 6|].
  assert (exists l, match buffer ch with
                    | Some l => Some l
                    | None => malloc_doubles SIZEOF_DOUBLE m
                    end = Some l /\ (0 < length l)%nat) as (l & -> & Hl).
  { unfold mem_ok in Hmem. rewrite Hcap in Hmem.
    destruct (buffer ch) as [l|]; [eauto|].
    destruct m as [|junk]; [congruence|]. simpl. eexists. split; [reflexivity|].
    simpl. lia. }
  rewrite store_block_ok by assumption.
  destruct (send_handoff_defined
              {| buffer := Some (<[0%nat:=v]> l); read_idx := read_idx ch;
                 write_idx := write_idx ch; count := 1;
                 capacity := capacity ch; closed := closed ch |}) as [q ->].
  do 3 eexists. split; [reflexivity|].
  unfold mem_ok. simpl. rewrite Hcap, length_insert. simpl. assumption.
Qed.

Lemma channel_send_defined h v m pc ch :
  chan_ok ch -> mem_ok ch -> pc_ok (capacity ch) (Send h v pc) ->
  (capacity ch = 0 -> m <> MallocNull) ->
  exists ch' pc' a, channel_send h v m pc ch = Some (ch', pc', a) /\ mem_ok ch'.
Proof.
  intros Hok Hmem Hpc Hm.
  assert (Hprior : capacity ch = 0 ->
            exists ch' pc' a, send_prior_loop ch v m = Some (ch', pc', a)
                              /\ mem_ok ch').
  { intros Hcap. unfold send_prior_loop.
    destruct ((0 <? count ch) && (closed ch =? 0)); [eauto 6|].
    apply send_unbuffered_deposit_defined; auto. }
  destruct pc; simpl in *; eauto 6.
  - destruct h; [eauto 6|]. unfold send_locked.
    destruct (negb (closed ch =? 0)); [eauto 6|].
    destruct (Z.ltb_spec 0 (capacity ch)) as [Hb|Hu].
    + now apply send_buffered_defined.
    + assert (Hcap : capacity ch = 0) by (pose proof (ok_capacity _ Hok); lia).
      destruct (0 <? count ch); [auto|].
      apply send_unbuffered_deposit_defined; auto.
  - now apply send_buffered_defined.
  - destruct (send_handoff_defined ch) as [q ->]. eauto 6.
Qed.

Lemma recv_locked_defined ch :
  chan_ok ch ->
  exists ch' pc' a, recv_locked ch = Some (ch', pc', a) /\ buffer ch' = buffer ch.
Proof.
  intros Hok. unfold recv_locked.
  destruct (Z.eqb_spec (count ch) 0) as [Hnone|Hsome]; simpl.
  - destruct (closed ch =? 0); simpl; eauto 6.
  - unfold recv_dequeue.
    pose proof (ok_count _ Hok) as Hn.
    destruct (ok_pending _ Hok 0) as [v Hv]; [lia|].
    destruct (Z.ltb_spec 0 (capacity ch)) as [Hb|Hu].
    + destruct (ok_buffered _ Hok Hb) as (Hr & _).
      rewrite slot_buffered, Z.add_0_r, Z.mod_small in Hv by lia.
      rewrite Hv. unfold size_rem.
      destruct (Z.eqb_spec (capacity ch) 0); [lia|]. eauto 6.
    + pose proof (ok_capacity _ Hok).
      rewrite slot_unbuffered in Hv by lia. rewrite Hv. eauto 6.
Qed.

Lemma channel_recv_defined h pc ch :
  chan_ok ch ->
  exists ch' pc' a, channel_recv h pc ch = Some (ch', pc', a)
                    /\ buffer ch' = buffer ch.
Proof.
  intros Hok. destruct pc; simpl; eauto 6 using recv_locked_defined.
  destruct h; eauto 6 using recv_locked_defined.
Qed.

Lemma mem_ok_same ch ch' :
  buffer ch' = buffer ch -> capacity ch' = capacity ch -> mem_ok ch -> mem_ok ch'.
Proof. unfold mem_ok. now intros -> ->. Qed.

Lemma step_defined i m s :
  sys_ok s -> mem_ok (chan s) ->
  (capacity (chan s) = 0 -> m <> MallocNull) ->
  exists s' a, step i m s = Some (s', a) /\ mem_ok (chan s').
Proof.
  intros [Hch Hts] Hmem Hm. unfold step.
  destruct (tasks s !! i) as [t|] eqn:Hi; [|eauto].
  assert (Hpc : pc_ok (capacity (chan s)) t) by (eapply Forall_lookup_1; eauto).
  destruct t as [h v pc|h pc|h [|]]; simpl.
  - destruct (channel_send_defined h v m pc (chan s)) as (c & q & b & -> & ?);
      eauto.
  - destruct (channel_recv_defined h pc (chan s) Hch) as (c & q & b & Hs & Hb).
    rewrite Hs. do 2 eexists. split; [reflexivity|]. simpl.
    apply mem_ok_same with (ch := chan s); auto.
    assert (chan_ok c /\ effect b (chan s) c /\ pc_ok (capacity (chan s)) (Recv h q))
      as (_ & [Hc _] & _); [|assumption].
    apply (task_section_sound m (Recv h pc)); auto. simpl. now rewrite Hs.
  - eauto.
  - do 2 eexists. split; [reflexivity|]. simpl. now destruct h.
Qed.

Lemma run_defined sched : forall s,
  sys_ok s -> mem_ok (chan s) ->
  (capacity (chan s) = 0 -> allocs_succeed sched) ->
  exists s' log, run sched s = Some (s', log) /\ mem_ok (chan s').
Proof.
  induction sched as [|[i m] rest IH]; intros s Hok Hmem Hal; simpl; [eauto|].
  destruct (step_defined i m s Hok Hmem) as (s1 & a & Hst & Hmem1).
  { intros Hcap. now apply Hal, Forall_cons in Hcap as [? _]. }
  rewrite Hst.
  destruct (step_sound _ _ _ _ _ Hok Hst) as (Hok1 & Hcap1 & _).
  destruct (IH s1 Hok1 Hmem1) as (s2 & log & -> & Hmem2); [|eauto].
  intros Hcap. rewrite Hcap1 in Hcap. now apply Hal, Forall_cons in Hcap as [_ ?].
Qed.

(** ** The shape of sections, without any invariant *)

Ltac crunch :=
  repeat (simplify_eq; simpl in *; try case_match); simplify_eq; simpl in *.

(** A section of send either changes nothing, or deposits the argument of
    the call on an open channel and goes on to the hand-off wait or to
    [return 0]. *)
Lemma channel_send_shape h v m pc ch ch' pc' a :
  channel_send h v m pc ch = Some (ch', pc', a) ->
  (a = Quiet /\ ch' = ch /\ (deposited pc -> deposited pc'))
  \/ (a = Deposit v /\ closed ch = 0 /\ deposited pc' /\ ~ deposited pc
      /\ forall r, pc <> SendRet r).
Proof.
  unfold deposited.
  destruct pc; simpl;
    unfold send_locked, send_buffered, send_prior_loop,
           send_unbuffered_deposit, send_handoff;
    intros H; crunch;
    try (left; repeat split; auto; intros [?|?]; congruence);
    right; cases; try lia; try discriminate;
    (repeat split; auto; try congruence; intros [?|?]; congruence).
Qed.

(** A section of receive either changes nothing, or takes a value and
    returns it. *)
Lemma channel_recv_shape h pc ch ch' pc' a :
  channel_recv h pc ch = Some (ch', pc', a) ->
  (a = Quiet /\ ch' = ch)
  \/ (exists v, a = Take v /\ pc' = RecvRet v /\ closed ch' = closed ch
                /\ forall r, pc <> RecvRet r).
Proof.
  destruct pc; simpl; unfold recv_locked, recv_dequeue;
    intros H; crunch; auto; right; eexists; repeat split; congruence.
Qed.

Lemma task_section_call m t ch ch' t' a :
  task_section m t ch = Some (ch', t', a) -> call_of t' = call_of t.
Proof. destruct t as [h v pc|h pc|h [|]]; simpl; intros H; crunch; auto. Qed.

Lemma task_section_returned m t ch :
  returned t -> task_section m t ch = Some (ch, t, Quiet).
Proof.
  destruct t as [h v []|h []|h [|]]; simpl; intros H; auto; contradiction.
Qed.

Lemma task_section_closed m t ch ch' t' a :
  task_section m t ch = Some (ch', t', a) ->
  closed ch' = closed ch \/ closed ch' = CHANNEL_CLOSED.
Proof.
  destruct t as [h v pc|h pc|h [|]]; simpl.
  - destruct (channel_send h v m pc ch) as [[[c q] b]|] eqn:Hs; [|discriminate].
    intros [= <- <- <-]. left.
    destruct (channel_send_shape _ _ _ _ _ _ _ _ Hs) as [(_ & -> & _)|_]; auto.
    revert Hs. destruct pc; simpl;
      unfold send_locked, send_buffered, send_prior_loop,
             send_unbuffered_deposit, send_handoff;
      intros H; crunch; auto.
  - destruct (channel_recv h pc ch) as [[[c q] b]|] eqn:Hs; [|discriminate].
    intros [= <- <- <-]. left.
    destruct (channel_recv_shape _ _ _ _ _ _ Hs) as [(_ & ->)|(? & _ & _ & ? & _)];
      auto.
  - intros [= <- <- <-]. auto.
  - intros [= <- <- <-]. destruct h; simpl; auto.
Qed.

Lemma task_section_deposit m t ch ch' t' v :
  task_section m t ch = Some (ch', t', Deposit v) ->
  exists h pc pc',
    t = Send h v pc /\ t' = Send h v pc' /\ deposited pc' /\ ~ deposited pc
    /\ closed ch = 0.
Proof.
  destruct t as [h w pc|h pc|h [|]]; simpl; try discriminate.
  - destruct (channel_send h w m pc ch) as [[[c q] b]|] eqn:Hs; [|discriminate].
    intros [= <- <- ->].
    destruct (channel_send_shape _ _ _ _ _ _ _ _ Hs)
      as [(? & _)|(E & ? & ? & ? & _)]; [discriminate|].
    injection E as <-. eauto 10.
  - destruct (channel_recv h pc ch) as [[[c q] b]|] eqn:Hs; [|discriminate].
    intros [= <- <- ->].
    destruct (channel_recv_shape _ _ _ _ _ _ Hs) as [(? & _)|(? & ? & _)];
      discriminate.
Qed.

Lemma task_section_take m t ch ch' t' v :
  task_section m t ch = Some (ch', t', Take v) ->
  exists h, t' = Recv h (RecvRet v).
Proof.
  destruct t as [h w pc|h pc|h [|]]; simpl; try discriminate.
  - destruct (channel_send h w m pc ch) as [[[c q] b]|] eqn:Hs; [|discriminate].
    intros [= <- <- ->].
    destruct (channel_send_shape _ _ _ _ _ _ _ _ Hs) as [(? & _)|(? & _)];
      discriminate.
  - destruct (channel_recv h pc ch) as [[[c q] b]|] eqn:Hs; [|discriminate].
    intros [= <- <- ->].
    destruct (channel_recv_shape _ _ _ _ _ _ Hs) as [(? & _)|(w & E & -> & _)];
      [discriminate|]. injection E as <-. eauto.
Qed.

(** ** Steps and runs, without any invariant *)

Lemma step_lookup i m s s' a :
  step i m s = Some (s', a) ->
  (tasks s !! i = None /\ s' = s /\ a = Quiet)
  \/ exists t t', tasks s !! i = Some t
       /\ task_section m t (chan s) = Some (chan s', t', a)
       /\ tasks s' = <[i := t']> (tasks s).
Proof.
  unfold step. destruct (tasks s !! i) as [t|] eqn:Hi.
  - destruct (task_section m t (chan s)) as [[[c t'] b]|] eqn:Hs; [|discriminate].
    intros [= <- <-]. right. eauto.
  - intros [= <- <-]. auto.
Qed.

Lemma step_other i j m s s' a :
  step i m s = Some (s', a) -> i <> j -> tasks s' !! j = tasks s !! j.
Proof.
  intros [(_ & -> & _)|(t & t' & _ & _ & ->)]%step_lookup Hne; [reflexivity|].
  now apply list_lookup_insert_ne.
Qed.

Lemma step_returned i j m s s' a t :
  step i m s = Some (s', a) -> tasks s !! j = Some t -> returned t ->
  tasks s' !! j = Some t.
Proof.
  intros Hst Hj Hret. destruct (decide (i = j)) as [->|Hne].
  - apply step_lookup in Hst as [(E & _)|(t0 & t' & E & Hs & ->)]; [congruence|].
    assert (t0 = t) as -> by congruence.
    rewrite task_section_returned in Hs by assumption. injection Hs as _ <-.
    rewrite list_insert_id; assumption.
  - now rewrite (step_other _ _ _ _ _ _ Hst Hne).
Qed.

Lemma step_calls i m s s' a :
  step i m s = Some (s', a) -> call_of <$> tasks s' = call_of <$> tasks s.
Proof.
  intros [(_ & -> & _)|(t & t' & Hi & Hs & ->)]%step_lookup; [reflexivity|].
  rewrite list_fmap_insert, (task_section_call _ _ _ _ _ _ Hs).
  apply list_insert_id. now rewrite list_lookup_fmap, Hi.
Qed.

Lemma step_closed i m s s' a :
  step i m s = Some (s', a) ->
  closed (chan s') = closed (chan s) \/ closed (chan s') = CHANNEL_CLOSED.
Proof.
  intros [(_ & -> & _)|(t & t' & _ & Hs & _)]%step_lookup; [auto|].
  eapply task_section_closed; eauto.
Qed.

Lemma run_returned sched : forall s s' log j t,
  run sched s = Some (s', log) -> tasks s !! j = Some t -> returned t ->
  tasks s' !! j = Some t.
Proof.
  induction sched as [|[i m] rest IH]; intros s s' log j t; simpl.
  - now intros [= <- <-].
  - destruct (step i m s) as [[s1 a]|] eqn:Hst; [|discriminate].
    destruct (run rest s1) as [[s2 log']|] eqn:Hrun; [|discriminate].
    intros [= <- <-] Hj Hret. eapply IH; eauto using step_returned.
Qed.

Lemma run_calls sched : forall s s' log,
  run sched s = Some (s', log) -> call_of <$> tasks s' = call_of <$> tasks s.
Proof.
  induction sched as [|[i m] rest IH]; intros s s' log; simpl.
  - now intros [= <- <-].
  - destruct (step i m s) as [[s1 a]|] eqn:Hst; [|discriminate].
    destruct (run rest s1) as [[s2 log']|] eqn:Hrun; [|discriminate].
    intros [= <- <-]. rewrite (IH _ _ _ Hrun). eapply step_calls; eauto.
Qed.

Lemma run_closed sched : forall s s' log,
  run sched s = Some (s', log) -> closed (chan s) <> 0 -> closed (chan s') <> 0.
Proof.
  induction sched as [|[i m] rest IH]; intros s s' log; simpl.
  - now intros [= <- <-].
  - destruct (step i m s) as [[s1 a]|] eqn:Hst; [|discriminate].
    destruct (run rest s1) as [[s2 log']|] eqn:Hrun; [|discriminate].
    intros [= <- <-] Hc. apply (IH _ _ _ Hrun).
    destruct (step_closed _ _ _ _ _ Hst) as [->| ->]; [assumption|].
    unfold CHANNEL_CLOSED. lia.
Qed.

Lemma boot_calls ch calls : call_of <$> tasks (boot ch calls) = calls.
Proof.
  simpl. rewrite <- list_fmap_compose. rewrite <- (list_fmap_id calls) at 2.
  apply list_fmap_ext. now intros _ [] _.
Qed.

Lemma step_ran i m s s' a t :
  step i m s = Some (s', a) -> tasks s !! i = Some t ->
  exists t', task_section m t (chan s) = Some (chan s', t', a)
             /\ tasks s' !! i = Some t'.
Proof.
  intros [(E & _)|(t0 & t' & E & Hs & Hts)]%step_lookup Hi; [congruence|].
  assert (t0 = t) as -> by congruence.
  exists t'. split; [assumption|]. rewrite Hts.
  apply list_lookup_insert_eq. eapply lookup_lt_Some; eauto.
Qed.

Lemma step_action_task i m s s' a :
  step i m s = Some (s', a) -> a <> Quiet ->
  exists t, tasks s !! i = Some t.
Proof.
  intros [(_ & _ & ->)|(t & _ & Hi & _)]%step_lookup Ha; [congruence | eauto].
Qed.

(** A value in the log of takes is the value its receive call returned. *)
Lemma run_takes sched : forall s s' log i v,
  run sched s = Some (s', log) -> In (i, Take v) log ->
  exists h, tasks s' !! i = Some (Recv h (RecvRet v)).
Proof.
  induction sched as [|[j m] rest IH]; intros s s' log i v; simpl.
  - intros [= <- <-] [].
  - destruct (step j m s) as [[s1 a]|] eqn:Hst; [|discriminate].
    destruct (run rest s1) as [[s2 log']|] eqn:Hrun; [|discriminate].
    intros [= <- <-] [[= -> ->]|Hin]; [|eauto].
    destruct (step_action_task _ _ _ _ _ Hst) as [t Hi]; [discriminate|].
    destruct (step_ran _ _ _ _ _ _ Hst Hi) as (t' & Hs & Hi').
    apply task_section_take in Hs as [h ->].
    exists h. eapply run_returned; eauto. exact I.
Qed.

(** A value in the log of deposits is the argument of its send call. *)
Lemma run_deposits sched : forall s s' log i v,
  run sched s = Some (s', log) -> In (i, Deposit v) log ->
  exists h, (call_of <$> tasks s) !! i = Some (CallSend h v).
Proof.
  induction sched as [|[j m] rest IH]; intros s s' log i v; simpl.
  - intros [= <- <-] [].
  - destruct (step j m s) as [[s1 a]|] eqn:Hst; [|discriminate].
    destruct (run rest s1) as [[s2 log']|] eqn:Hrun; [|discriminate].
    intros [= <- <-] [[= -> ->]|Hin].
    + destruct (step_action_task _ _ _ _ _ Hst) as [t Hi]; [discriminate|].
      destruct (step_ran _ _ _ _ _ _ Hst Hi) as (t' & Hs & Hi').
      apply task_section_deposit in Hs as (h & pc & pc' & -> & _).
      exists h. now rewrite list_lookup_fmap, Hi.
    + rewrite <- (step_calls _ _ _ _ _ Hst). eauto.
Qed.

(** Once a send has deposited, it stays in the hand-off wait or has
    returned 0. *)
Lemma step_deposited i j m s s' a h v pc :
  step i m s = Some (s', a) -> tasks s !! j = Some (Send h v pc) ->
  deposited pc ->
  (i = j -> a = Quiet)
  /\ exists pc', tasks s' !! j = Some (Send h v pc') /\ deposited pc'.
Proof.
  intros Hst Hj Hd. destruct (decide (i = j)) as [->|Hne].
  - destruct (step_ran _ _ _ _ _ _ Hst Hj) as (t' & Hs & Hj'). simpl in Hs.
    destruct (channel_send h v m pc (chan s)) as [[[c q] b]|] eqn:Hsend;
      [|discriminate].
    injection Hs as _ <- <-.
    destruct (channel_send_shape _ _ _ _ _ _ _ _ Hsend)
      as [(-> & _ & Hq)|(_ & _ & _ & Hn & _)]; [|contradiction].
    split; [reflexivity | eauto].
  - split; [contradiction|]. rewrite (step_other _ _ _ _ _ _ Hst Hne). eauto.
Qed.

Lemma run_deposited sched : forall s s' log j h v pc,
  run sched s = Some (s', log) -> tasks s !! j = Some (Send h v pc) ->
  deposited pc ->
  (forall w, ~ In (j, Deposit w) log)
  /\ exists pc', tasks s' !! j = Some (Send h v pc') /\ deposited pc'.
Proof.
  induction sched as [|[i m] rest IH]; intros s s' log j h v pc; simpl.
  - intros [= <- <-] Hj Hd. split; [intros w []| eauto].
  - destruct (step i m s) as [[s1 a]|] eqn:Hst; [|discriminate].
    destruct (run rest s1) as [[s2 log']|] eqn:Hrun; [|discriminate].
    intros [= <- <-] Hj Hd.
    destruct (step_deposited _ _ _ _ _ _ _ _ _ Hst Hj Hd) as (Hq & pc1 & Hj1 & Hd1).
    destruct (IH _ _ _ _ _ _ _ Hrun Hj1 Hd1) as (Hno & Hfin).
    split; [|assumption].
    intros w [[= -> ->]|Hin]; [|now apply (Hno w)].
    now specialize (Hq eq_refl).
Qed.

(** A send that returned -1 never deposited. *)
Lemma run_rejected sched : forall s s' log j h v,
  run sched s = Some (s', log) ->
  tasks s' !! j = Some (Send h v (SendRet (-1))) ->
  forall w, ~ In (j, Deposit w) log.
Proof.
  induction sched as [|[i m] rest IH]; intros s s' log j h v; simpl.
  - intros [= <- <-] _ w [].
  - destruct (step i m s) as [[s1 a]|] eqn:Hst; [|discriminate].
    destruct (run rest s1) as [[s2 log']|] eqn:Hrun; [|discriminate].
    intros [= <- <-] Hfin w [[= -> ->]|Hin]; [|eapply IH; eauto].
    destruct (step_action_task _ _ _ _ _ Hst) as [t Hi]; [discriminate|].
    destruct (step_ran _ _ _ _ _ _ Hst Hi) as (t' & Hs & Hi').
    apply task_section_deposit in Hs as (h' & pc & pc' & -> & -> & Hd & _).
    destruct (run_deposited _ _ _ _ _ _ _ _ Hrun Hi' Hd) as (_ & q & Hq & Hdq).
    rewrite Hfin in Hq. injection Hq as _ _ <-.
    destruct Hdq; discriminate.
Qed.

(** ** Sections on a closed channel *)

Lemma channel_send_closed h v m pc ch :
  closed ch <> 0 ->
  exists pc',
    channel_send h v m pc ch = Some (ch, pc', Quiet)
    /\ (pc = SendCall -> pc' = SendRet (-1))
    /\ (pc = SendWaitSpace -> pc' = SendRet (-1))
    /\ (pc = SendWaitPrior -> pc' = SendRet (-1))
    /\ (pc = SendWaitHandoff -> pc' = SendRet 0).
Proof.
  intros Hc.
  destruct pc; simpl;
    unfold send_locked, send_buffered, send_prior_loop,
           send_unbuffered_deposit, send_handoff;
    destruct (Z.eqb_spec (closed ch) 0); try contradiction;
    rewrite ?andb_false_r; simpl;
    try destruct h; eexists; (split; [reflexivity|]);
    repeat split; auto; discriminate.
Qed.

Lemma set_closed_same ch : closed ch = CHANNEL_CLOSED -> set_closed ch CHANNEL_CLOSED = ch.
Proof. destruct ch; simpl. now intros ->. Qed.

Lemma channel_recv_closed h pc ch :
  chan_ok ch -> closed ch <> 0 -> (forall r, pc <> RecvRet r) ->
  exists ch' v a,
    channel_recv h pc ch = Some (ch', RecvRet v, a)
    /\ (h = ChanHandle -> count ch = 0 -> ch' = ch /\ v = zero /\ a = Quiet)
    /\ (h = ChanHandle -> count ch <> 0 ->
        a = Take v /\ contents ch = v :: contents ch').
Proof.
  intros Hok Hc Hpc.
  assert (Hlocked : exists ch' v a,
            recv_locked ch = Some (ch', RecvRet v, a)
            /\ (count ch = 0 -> ch' = ch /\ v = zero /\ a = Quiet)
            /\ (count ch <> 0 -> a = Take v /\ contents ch = v :: contents ch')).
  { destruct (recv_locked_defined ch Hok) as (ch' & pc' & a & Hr & _).
    pose proof Hr as Hr'. unfold recv_locked in Hr'.
    destruct (Z.eqb_spec (closed ch) 0); [contradiction|].
    destruct (Z.eqb_spec (count ch) 0) as [Hz|Hnz]; simpl in Hr'.
    - injection Hr' as <- <- <-. exists ch, zero, Quiet.
      split; [assumption|]. split; [auto | contradiction].
    - destruct (recv_dequeue_sound _ _ _ _ Hok Hnz Hr')
        as (_ & (_ & He) & v & -> & ->).
      exists ch', v, (Take v). split; [assumption|].
      split; [contradiction|]. intros _. split; [reflexivity | apply He]. }
  destruct Hlocked as (ch' & v & a & Hr & Hz & Hnz).
  destruct pc as [| |r]; simpl; [|eauto 10|now destruct (Hpc r)].
  destruct h; [|eauto 10].
  exists ch, zero, Quiet. split; [reflexivity|]. split; discriminate.
Qed.

(** On a closed channel nothing is deposited any more, and a send that
    takes the lock is turned away. *)
Lemma run_closed_sends sched : forall s s' log,
  closed (chan s) <> 0 -> run sched s = Some (s', log) ->
  deposits log = []
  /\ forall i h v, tasks s !! i = Some (Send h v SendCall) ->
       In i (map fst sched) ->
       tasks s' !! i = Some (Send h v (SendRet (-1))).
Proof.
  induction sched as [|[j m] rest IH]; intros s s' log Hc; simpl.
  - intros [= <- <-]. split; [reflexivity | intros i h v _ []].
  - destruct (step j m s) as [[s1 a]|] eqn:Hst; [|discriminate].
    destruct (run rest s1) as [[s2 log']|] eqn:Hrun; [|discriminate].
    intros [= <- <-].
    assert (Hc1 : closed (chan s1) <> 0).
    { destruct (step_closed _ _ _ _ _ Hst) as [->| ->]; [assumption|].
      unfold CHANNEL_CLOSED. lia. }
    destruct (IH _ _ _ Hc1 Hrun) as (Hdep & Hsend). split.
    + unfold deposits in *. simpl. destruct a as [|v|v]; simpl; auto.
      destruct (step_action_task _ _ _ _ _ Hst) as [t Hi]; [discriminate|].
      destruct (step_ran _ _ _ _ _ _ Hst Hi) as (t' & Hs & _).
      apply task_section_deposit in Hs as (_ & _ & _ & _ & _ & _ & _ & E).
      contradiction.
    + intros i h v Hi Hin. destruct (decide (j = i)) as [->|Hne].
      * destruct (step_ran _ _ _ _ _ _ Hst Hi) as (t' & Hs & Hi').
        cbn [task_section] in Hs.
        destruct (channel_send_closed h v m SendCall (chan s) Hc)
          as (pc' & Hsend' & Hret & _).
        rewrite Hsend', (Hret eq_refl) in Hs. injection Hs as _ <- _.
        eapply run_returned; eauto. exact I.
      * destruct Hin as [?|Hin]; [contradiction|].
        apply Hsend; [|assumption].
        now rewrite (step_other _ _ _ _ _ _ Hst Hne).
Qed.

Lemma channel_recv_drained h pc ch :
  closed ch <> 0 -> count ch = 0 ->
  exists pc',
    channel_recv h pc ch = Some (ch, pc', Quiet)
    /\ ((forall r, pc <> RecvRet r) -> pc' = RecvRet zero).
Proof.
  intros Hc Hn.
  assert (Hl : recv_locked ch = Some (ch, RecvRet zero, Quiet)).
  { unfold recv_locked. rewrite Hn.
    destruct (Z.eqb_spec (closed ch) 0); [contradiction | reflexivity]. }
  destruct pc as [| |r]; simpl.
  - destruct h; rewrite ?Hl; eauto.
  - rewrite Hl. eauto.
  - eexists. split; [reflexivity|]. intros H. now destruct (H r).
Qed.

Lemma step_drained i m s s' a :
  sys_ok s -> closed (chan s) <> 0 -> count (chan s) = 0 ->
  step i m s = Some (s', a) -> chan s' = chan s /\ a = Quiet.
Proof.
  intros Hok Hc Hn [(_ & -> & ->)|(t & t' & Hi & Hs & _)]%step_lookup; [auto|].
  destruct t as [h v pc|h pc|h [|]]; cbn [task_section] in Hs.
  - destruct (channel_send_closed h v m pc (chan s) Hc) as (pc' & E & _).
    rewrite E in Hs. now injection Hs as <- _ <-.
  - destruct (channel_recv_drained h pc (chan s) Hc Hn) as (pc' & E & _).
    rewrite E in Hs. now injection Hs as <- _ <-.
  - now injection Hs as <- _ <-.
  - injection Hs as <- _ <-. split; [|reflexivity].
    destruct h; simpl; [reflexivity|]. apply set_closed_same.
    destruct (ok_closed _ (ok_chan _ Hok)) as [E|E]; [|assumption].
    unfold CHANNEL_OPEN in E. contradiction.
Qed.

(** After the close a receive that runs returns: it never parks. *)
Lemma run_closed_recvs sched : forall s s' log,
  sys_ok s -> closed (chan s) <> 0 -> run sched s = Some (s', log) ->
  forall i h pc, tasks s !! i = Some (Recv h pc) -> In i (map fst sched) ->
    exists v, tasks s' !! i = Some (Recv h (RecvRet v)).
Proof.
  induction sched as [|[j m] rest IH]; intros s s' log Hok Hc; simpl.
  - intros [= <- <-] i h pc _ [].
  - destruct (step j m s) as [[s1 a]|] eqn:Hst; [|discriminate].
    destruct (run rest s1) as [[s2 log']|] eqn:Hrun; [|discriminate].
    intros [= <- <-] i h pc Hi Hin.
    destruct (step_sound _ _ _ _ _ Hok Hst) as (Hok1 & _).
    assert (Hc1 : closed (chan s1) <> 0).
    { destruct (step_closed _ _ _ _ _ Hst) as [->| ->]; [assumption|].
      unfold CHANNEL_CLOSED. lia. }
    destruct (decide (j = i)) as [->|Hne].
    + destruct (step_ran _ _ _ _ _ _ Hst Hi) as (t' & Hs & Hi').
      cbn [task_section] in Hs.
      destruct pc as [| |r].
      * destruct (channel_recv_closed h RecvCall (chan s) (ok_chan _ Hok) Hc)
          as (c & v & b & E & _); [discriminate|].
        rewrite E in Hs. injection Hs as _ <- _.
        exists v. eapply run_returned; eauto. exact I.
      * destruct (channel_recv_closed h RecvWaitData (chan s) (ok_chan _ Hok) Hc)
          as (c & v & b & E & _); [discriminate|].
        rewrite E in Hs. injection Hs as _ <- _.
        exists v. eapply run_returned; eauto. exact I.
      * simpl in Hs. injection Hs as _ <- _.
        exists r. eapply run_returned; eauto. exact I.
    + destruct Hin as [?|Hin]; [contradiction|].
      apply (IH _ _ _ Hok1 Hc1 Hrun i h pc); [|assumption].
      now rewrite (step_other _ _ _ _ _ _ Hst Hne).
Qed.

(** A closed and drained channel stays as it is, and a receive that runs
    returns [0.0]. *)
Lemma run_drained sched : forall s s' log,
  sys_ok s -> closed (chan s) <> 0 -> count (chan s) = 0 ->
  run sched s = Some (s', log) ->
  chan s' = chan s
  /\ forall i h pc, tasks s !! i = Some (Recv h pc) ->
       (forall r, pc <> RecvRet r) -> In i (map fst sched) ->
       tasks s' !! i = Some (Recv h (RecvRet zero)).
Proof.
  induction sched as [|[j m] rest IH]; intros s s' log Hok Hc Hn; simpl.
  - intros [= <- <-]. split; [reflexivity | intros i h pc _ _ []].
  - destruct (step j m s) as [[s1 a]|] eqn:Hst; [|discriminate].
    destruct (run rest s1) as [[s2 log']|] eqn:Hrun; [|discriminate].
    intros [= <- <-].
    destruct (step_sound _ _ _ _ _ Hok Hst) as (Hok1 & _).
    destruct (step_drained _ _ _ _ _ Hok Hc Hn Hst) as (Hch & _).
    assert (Hc1 : closed (chan s1) <> 0) by congruence.
    assert (Hn1 : count (chan s1) = 0) by congruence.
    destruct (IH s1 _ _ Hok1 Hc1 Hn1 Hrun) as (Hch2 & Hrecv).
    split; [congruence|].
    intros i h pc Hi Hpc Hin. destruct (decide (j = i)) as [->|Hne].
    + destruct (step_ran _ _ _ _ _ _ Hst Hi) as (t' & Hs & Hi').
      cbn [task_section] in Hs.
      destruct (channel_recv_drained h pc (chan s) Hc Hn) as (pc' & E & Hz).
      rewrite E, (Hz Hpc) in Hs. injection Hs as _ <-.
      eapply run_returned; eauto. exact I.
    + destruct Hin as [?|Hin]; [contradiction|].
      apply (Hrecv i h pc); auto.
      now rewrite (step_other _ _ _ _ _ _ Hst Hne).
Qed.

Lemma run_snoc sched : forall s s' log i m s'' a,
  run sched s = Some (s', log) -> step i m s' = Some (s'', a) ->
  run (sched ++ [(i, m)]) s = Some (s'', log ++ [(i, a)]).
Proof.
  induction sched as [|[j n] rest IH]; intros s s' log i m s'' a; simpl.
  - intros [= <- <-] ->. reflexivity.
  - destruct (step j n s) as [[s1 b]|] eqn:Hst; [|discriminate].
    destruct (run rest s1) as [[s2 log']|] eqn:Hrun; [|discriminate].
    intros [= <- <-] Hlast. now rewrite (IH _ _ _ _ _ _ _ Hrun Hlast).
Qed.

Lemma step_closed_defined i m s :
  sys_ok s -> closed (chan s) <> 0 -> exists s' a, step i m s = Some (s', a).
Proof.
  intros Hok Hc. unfold step.
  destruct (tasks s !! i) as [t|] eqn:Hi; [|eauto].
  destruct t as [h v pc|h pc|h [|]]; cbn [task_section]; eauto.
  - destruct (channel_send_closed h v m pc (chan s) Hc) as (pc' & -> & _). eauto.
  - destruct (channel_recv_defined h pc (chan s) (ok_chan _ Hok))
      as (c & q & b & -> & _). eauto.
Qed.

Lemma run_closed_defined sched : forall s,
  sys_ok s -> closed (chan s) <> 0 -> exists s' log, run sched s = Some (s', log).
Proof.
  induction sched as [|[i m] rest IH]; intros s Hok Hc; simpl; [eauto|].
  destruct (step_closed_defined i m s Hok Hc) as (s1 & a & Hst). rewrite Hst.
  destruct (step_sound _ _ _ _ _ Hok Hst) as (Hok1 & _).
  destruct (IH s1 Hok1) as (s2 & log & ->); [|eauto].
  destruct (step_closed _ _ _ _ _ Hst) as [->| ->]; [assumption|].
  unfold CHANNEL_CLOSED. lia.
Qed.

Lemma chan_ok_ring_inv ch : chan_ok ch -> ring_inv ch.
Proof.
  intros [Hc Hcl Hn Hbuf Hunb Hpend]. split.
  - intros Hcap. destruct (Hbuf Hcap) as (Hr & Hw & Hle & Hwr).
    split; [now apply ring_distance|]. split; [lia|].
    unfold ring_full. rewrite Z.leb_le. lia.
  - intros Hcap. split; [assumption | auto].
Qed.

Lemma channel_create_mem_ok env cap ch :
  0 <= cap -> cap * SIZEOF_DOUBLE < SIZE_MOD ->
  (0 < cap -> ring_alloc env <> MallocNull) ->
  channel_create env cap = Some ch -> mem_ok ch.
Proof.
  intros Hcap Hsize Hring. unfold channel_create.
  destruct (struct_alloc env); [|discriminate]. simpl. intros [= <-].
  unfold mem_ok. simpl. destruct (Z.ltb_spec 0 cap) as [Hpos|Hzero].
  - destruct (ring_alloc env) as [|junk]; [now destruct (Hring Hpos)|]. simpl.
    destruct (Z.eqb_spec cap 0); [lia|].
    rewrite length_replicate, wrap_small by (unfold SIZEOF_DOUBLE in *; lia).
    unfold SIZEOF_DOUBLE. rewrite Z.div_mul by lia. lia.
  - lia.
Qed.

(** ** The claims *)

(** C8: for a null handle, [channel_send] returns -1 and [channel_recv]
    returns 0.0 in their first section, before any lock or wait, and the
    channel is left exactly as it was; the receive takes no value
    (absent). *)
Theorem null_handle_rejected (v : double) (m : malloc_result) (ch : Channel) :
  channel_send NullHandle v m SendCall ch = Some (ch, SendRet (-1), Quiet)
  /\ channel_recv NullHandle RecvCall ch = Some (ch, RecvRet zero, Quiet).
Proof. split; reflexivity. Qed.

(** C7: [channel_close] is idempotent, a second close leaves the channel
    as the first one left it, and the closed flag is monotone: whatever
    sections of whatever calls run after a close, the flag stays set. *)
Theorem close_idempotent_monotone
    (h : handle) (ch : Channel) (ts : list task) (sched : schedule)
    (s' : system) (log : list (nat * action)) :
  run sched (mkSystem (channel_close ChanHandle ch) ts) = Some (s', log) ->
  channel_close h (channel_close h ch) = channel_close h ch
  /\ closed (chan s') = CHANNEL_CLOSED.
Proof.
  intros Hrun. split; [now destruct h|].
  assert (Hgen : forall sched s s' log,
            run sched s = Some (s', log) -> closed (chan s) = CHANNEL_CLOSED ->
            closed (chan s') = CHANNEL_CLOSED).
  { clear. induction sched as [|[i m] rest IH]; intros s s' log; simpl.
    - now intros [= <- <-].
    - destruct (step i m s) as [[s1 a]|] eqn:Hst; [|discriminate].
      destruct (run rest s1) as [[s2 log']|] eqn:Hrun; [|discriminate].
      intros [= <- <-] Hc. apply (IH _ _ _ Hrun).
      destruct (step_closed _ _ _ _ _ Hst) as [E|E]; congruence. }
  now apply (Hgen _ _ _ _ Hrun).
Qed.

Lemma close_idempotent_monotone_witness :
  run sched_s3_after (mkSystem (channel_close ChanHandle chan_s3_open)
                               (tasks sys_s3_closed))
    = Some (sys_s3_final, log_s3_after)
  /\ channel_close ChanHandle (channel_close ChanHandle chan_s3_open)
     = channel_close ChanHandle chan_s3_open
  /\ closed (chan sys_s3_final) = CHANNEL_CLOSED.
Proof.
  split; [vm_compute; reflexivity|].
  apply (close_idempotent_monotone ChanHandle chan_s3_open
           (tasks sys_s3_closed) sched_s3_after sys_s3_final log_s3_after).
  vm_compute. reflexivity.
Defined.

(** C9: in any execution, the section in which a [channel_send] returns -1
    leaves the channel exactly as it found it when it acquired the mutex
    (buffer, [read_idx], [write_idx], [count] and all), and no earlier
    section of that call deposited anything: a rejected send enqueues
    nothing. *)
Theorem rejected_send_atomic
    (sched : schedule) (s s' s'' : system) (log : list (nat * action))
    (i : nat) (m : malloc_result) (a : action) (h : handle) (v : double) :
  run sched s = Some (s', log) ->
  step i m s' = Some (s'', a) ->
  tasks s'' !! i = Some (Send h v (SendRet (-1))) ->
  chan s'' = chan s' /\ a = Quiet /\ forall w, ~ In (i, Deposit w) log.
Proof.
  intros Hrun Hst Hret.
  pose proof (run_snoc _ _ _ _ _ _ _ _ Hrun Hst) as Hall.
  pose proof (run_rejected _ _ _ _ _ _ _ Hall Hret) as Hno.
  assert (Ha : a = Quiet).
  { destruct a as [|w|w]; [reflexivity| |].
    - destruct (Hno w). apply in_or_app. right. now left.
    - destruct (step_action_task _ _ _ _ _ Hst) as [t Hi]; [discriminate|].
      destruct (step_ran _ _ _ _ _ _ Hst Hi) as (t' & Hs & Hi').
      apply task_section_take in Hs as [h' ->]. congruence. }
  split; [|split; [assumption|]].
  - apply step_lookup in Hst as [(_ & -> & _)|(t & t' & Hi & Hs & Hts)];
      [reflexivity|].
    assert (t' = Send h v (SendRet (-1))) as ->.
    { rewrite Hts, list_lookup_insert_eq in Hret by (eapply lookup_lt_Some; eauto).
      congruence. }
    pose proof (task_section_call _ _ _ _ _ _ Hs) as Hcall.
    destruct t as [h0 v0 pc| |]; try discriminate.
    cbn [task_section] in Hs.
    destruct (channel_send h0 v0 m pc (chan s')) as [[[c q] b]|] eqn:Hsend;
      [|discriminate].
    injection Hs as <- _ ->.
    destruct (channel_send_shape _ _ _ _ _ _ _ _ Hsend)
      as [(_ & -> & _)|(E & _)]; [reflexivity | congruence].
  - intros w Hin. apply (Hno w), in_or_app. now left.
Qed.

Lemma rejected_send_atomic_witness :
  run sched_s3_before (boot (created 2) calls_s3)
    = Some (sys_s3_closed, log_s3_before)
  /\ step 6 fresh_block sys_s3_closed = Some (sys_s3_late, Quiet)
  /\ tasks sys_s3_late !! 6%nat = Some (Send ChanHandle 9%float (SendRet (-1)))
  /\ chan sys_s3_late = chan sys_s3_closed /\ Quiet = Quiet
  /\ forall w, ~ In (6%nat, Deposit w) log_s3_before.
Proof.
  split; [reflexivity|]. split; [reflexivity|]. split; [reflexivity|].
  apply (rejected_send_atomic sched_s3_before (boot (created 2) calls_s3)
           sys_s3_closed sys_s3_late log_s3_before 6 fresh_block Quiet
           ChanHandle 9%float); reflexivity.
Defined.

(** C4: once the channel is closed, no section of any send deposits a
    value or changes the channel at all, the flag stays set, and every
    [channel_send] that takes the lock from then on returns -1. *)
Theorem closed_rejects_send
    (sched : schedule) (s s' : system) (log : list (nat * action)) :
  closed (chan s) <> 0 ->
  run sched s = Some (s', log) ->
  deposits log = []
  /\ closed (chan s') <> 0
  /\ (forall i h v, tasks s !! i = Some (Send h v SendCall) ->
        In i (map fst sched) ->
        tasks s' !! i = Some (Send h v (SendRet (-1))))
  /\ (forall h v m pc, exists pc',
        channel_send h v m pc (chan s') = Some (chan s', pc', Quiet)).
Proof.
  intros Hc Hrun.
  destruct (run_closed_sends _ _ _ _ Hc Hrun) as (Hdep & Hsend).
  pose proof (run_closed _ _ _ _ Hrun Hc) as Hc'.
  repeat split; auto.
  intros h v m pc.
  destruct (channel_send_closed h v m pc (chan s') Hc') as (pc' & E & _). eauto.
Qed.

Lemma closed_rejects_send_witness :
  closed (chan sys_s3_closed) <> 0
  /\ run sched_s3_after sys_s3_closed = Some (sys_s3_final, log_s3_after)
  /\ deposits log_s3_after = []
  /\ closed (chan sys_s3_final) <> 0
  /\ (forall i h v, tasks sys_s3_closed !! i = Some (Send h v SendCall) ->
        In i (map fst sched_s3_after) ->
        tasks sys_s3_final !! i = Some (Send h v (SendRet (-1))))
  /\ (forall h v m pc, exists pc',
        channel_send h v m pc (chan sys_s3_final)
        = Some (chan sys_s3_final, pc', Quiet)).
Proof.
  split; [discriminate|]. split; [vm_compute; reflexivity|].
  apply (closed_rejects_send sched_s3_after sys_s3_closed sys_s3_final
           log_s3_after); [discriminate | vm_compute; reflexivity].
Defined.

(** C3: take any state an execution reaches in which the channel is
    closed.  From there every schedule runs without undefined behaviour;
    the values deposited before the close are handed to the receivers in
    the order of their deposit and nothing else is; a receive that runs
    returns instead of parking, with the oldest pending value when there is
    one; and once [count] is 0 the channel stays exactly as it is and every
    receive that runs returns 0.0 and takes nothing. *)
Theorem drain_then_closed
    (env : create_env) (cap : Z) (ch : Channel) (calls : list call)
    (before sched : schedule) (s : system) (log0 : list (nat * action)) :
  0 <= cap < SIZE_MOD ->
  channel_create env cap = Some ch ->
  run before (boot ch calls) = Some (s, log0) ->
  closed (chan s) <> 0 ->
  exists s' log,
    run sched s = Some (s', log)
    /\ deposits log = []
    /\ contents (chan s) = takes log ++ contents (chan s')
    /\ deposits log0 = takes log0 ++ takes log ++ contents (chan s')
    /\ (forall i h pc, tasks s !! i = Some (Recv h pc) ->
          In i (map fst sched) ->
          exists v, tasks s' !! i = Some (Recv h (RecvRet v)))
    /\ (forall pc, count (chan s) <> 0 -> (forall r, pc <> RecvRet r) ->
          exists ch' v,
            channel_recv ChanHandle pc (chan s) = Some (ch', RecvRet v, Take v)
            /\ contents (chan s) = v :: contents ch')
    /\ (count (chan s) = 0 ->
          chan s' = chan s /\ takes log = []
          /\ forall i h pc, tasks s !! i = Some (Recv h pc) ->
               (forall r, pc <> RecvRet r) -> In i (map fst sched) ->
               tasks s' !! i = Some (Recv h (RecvRet zero))).
Proof.
  intros Hcap Hcreate Hbefore Hc.
  pose proof (boot_ok ch calls (channel_create_ok _ _ _ Hcap Hcreate)) as Hok0.
  destruct (run_sound _ _ _ _ Hok0 Hbefore) as (Hok & _ & Hq0).
  destruct (run_closed_defined sched s Hok Hc) as (s' & log & Hrun).
  destruct (run_sound _ _ _ _ Hok Hrun) as (Hok' & _ & Hq).
  destruct (run_closed_sends _ _ _ _ Hc Hrun) as (Hdep & _).
  rewrite Hdep, app_nil_r in Hq.
  assert (Hempty : contents (chan (boot ch calls)) = []).
  { unfold channel_create in Hcreate.
    destruct (struct_alloc env); [|discriminate]. now injection Hcreate as <-. }
  rewrite Hempty in Hq0. simpl in Hq0.
  exists s', log.
  split; [assumption|]. split; [assumption|]. split; [assumption|].
  split; [now rewrite Hq0, Hq, app_assoc|].
  split; [eapply run_closed_recvs; eauto|]. split.
  - intros pc Hn Hpc.
    destruct (channel_recv_closed ChanHandle pc (chan s) (ok_chan _ Hok) Hc Hpc)
      as (ch' & v & a & E & _ & Htake).
    destruct (Htake eq_refl Hn) as (-> & Hcont). eauto.
  - intros Hzero.
    destruct (run_drained _ _ _ _ Hok Hc Hzero Hrun) as (E & Hrecv).
    split; [assumption|]. split; [|assumption].
    rewrite E in Hq. apply (f_equal (@length double)) in Hq.
    rewrite length_app in Hq. destruct (takes log); [reflexivity|].
    simpl in Hq. lia.
Qed.

Lemma drain_then_closed_witness :
  0 <= 2 < SIZE_MOD
  /\ channel_create env_good 2 = Some (created 2)
  /\ run sched_s3_before (boot (created 2) calls_s3)
     = Some (sys_s3_closed, log_s3_before)
  /\ closed (chan sys_s3_closed) <> 0
  /\ exists s' log,
       run sched_s3_after sys_s3_closed = Some (s', log)
       /\ deposits log = []
       /\ contents (chan sys_s3_closed) = takes log ++ contents (chan s')
       /\ deposits log_s3_before
          = takes log_s3_before ++ takes log ++ contents (chan s')
       /\ (forall i h pc, tasks sys_s3_closed !! i = Some (Recv h pc) ->
             In i (map fst sched_s3_after) ->
             exists v, tasks s' !! i = Some (Recv h (RecvRet v)))
       /\ (forall pc, count (chan sys_s3_closed) <> 0 ->
             (forall r, pc <> RecvRet r) ->
             exists ch' v,
               channel_recv ChanHandle pc (chan sys_s3_closed)
                 = Some (ch', RecvRet v, Take v)
               /\ contents (chan sys_s3_closed) = v :: contents ch')
       /\ (count (chan sys_s3_closed) = 0 ->
             chan s' = chan sys_s3_closed /\ takes log = []
             /\ forall i h pc, tasks sys_s3_closed !! i = Some (Recv h pc) ->
                  (forall r, pc <> RecvRet r) ->
                  In i (map fst sched_s3_after) ->
                  tasks s' !! i = Some (Recv h (RecvRet zero))).
Proof.
  split; [unfold SIZE_MOD; lia|]. split; [reflexivity|].
  split; [reflexivity|]. split; [discriminate|].
  apply (drain_then_closed env_good 2 (created 2) calls_s3 sched_s3_before
           sched_s3_after sys_s3_closed log_s3_before);
    [unfold SIZE_MOD; lia | reflexivity | reflexivity | discriminate].
Defined.

(** Scenario S1 run on the code: the receives return 1.0, 2.0, 3.0. *)
Example fifo_s1 :
  run sched_s1 (boot (created 4) calls_s1) = Some (sys_s1_final, log_s1)
  /\ deposits log_s1 = [1%float; 2%float; 3%float]
  /\ takes log_s1 = [1%float; 2%float; 3%float].
Proof. vm_compute. repeat split; reflexivity. Qed.

(** C6: in every state an execution reaches from the created channel, the
    ring invariant holds: on a buffered channel
    [(write_idx - read_idx) mod capacity = count mod capacity],
    [0 <= count <= capacity], both indices are inside the ring, and
    [count = capacity] holds exactly when the ring is full, that is when
    the test of line 65 makes a send wait, and exactly when the write index
    has caught up with the read index while values are pending; on an
    unbuffered channel [0 <= count <= 1]. *)
Theorem ring_invariant
    (env : create_env) (cap : Z) (ch : Channel) (calls : list call)
    (sched : schedule) (s : system) (log : list (nat * action)) :
  0 <= cap < SIZE_MOD ->
  channel_create env cap = Some ch ->
  run sched (boot ch calls) = Some (s, log) ->
  capacity (chan s) = cap
  /\ ring_inv (chan s)
  /\ (0 < cap ->
      0 <= read_idx (chan s) < cap /\ 0 <= write_idx (chan s) < cap
      /\ (count (chan s) = cap <->
            write_idx (chan s) = read_idx (chan s) /\ 0 < count (chan s))).
Proof.
  intros Hcap Hcreate Hrun.
  pose proof (boot_ok ch calls (channel_create_ok _ _ _ Hcap Hcreate)) as Hok.
  destruct (run_sound _ _ _ _ Hok Hrun) as ([Hch _] & Hsame & _).
  assert (Hcapacity : capacity (chan s) = cap).
  { rewrite Hsame. unfold channel_create in Hcreate.
    destruct (struct_alloc env); [|discriminate]. now injection Hcreate as <-. }
  split; [assumption|]. split; [now apply chan_ok_ring_inv|].
  intros Hpos. rewrite <- Hcapacity in *.
  destruct (ok_buffered _ Hch Hpos) as (Hr & Hw & Hle & Hwr).
  pose proof (ok_count _ Hch) as Hn.
  split; [assumption|]. split; [assumption|]. split.
  - intros Hfull. split; [|lia].
    rewrite Hwr, Hfull, Z.add_mod, Z.mod_same, Z.add_0_r, Z.mod_mod by lia.
    apply Z.mod_small. lia.
  - intros [Heq Hsome].
    destruct (Z.eq_dec (count (chan s)) (capacity (chan s))) as [|Hne];
      [assumption|exfalso].
    apply (slot_apart (capacity (chan s)) (read_idx (chan s)) 0 (count (chan s)));
      try lia.
    rewrite Z.add_0_r, Z.mod_small by lia. congruence.
Qed.

Lemma ring_invariant_witness :
  0 <= 4 < SIZE_MOD
  /\ channel_create env_good 4 = Some (created 4)
  /\ run sched_s1 (boot (created 4) calls_s1) = Some (sys_s1_final, log_s1)
  /\ capacity (chan sys_s1_final) = 4
  /\ ring_inv (chan sys_s1_final)
  /\ (0 < 4 ->
      0 <= read_idx (chan sys_s1_final) < 4
      /\ 0 <= write_idx (chan sys_s1_final) < 4
      /\ (count (chan sys_s1_final) = 4 <->
            write_idx (chan sys_s1_final) = read_idx (chan sys_s1_final)
            /\ 0 < count (chan sys_s1_final))).
Proof.
  split; [unfold SIZE_MOD; lia|]. split; [vm_compute; reflexivity|].
  split; [vm_compute; reflexivity|].
  apply (ring_invariant env_good 4 (created 4) calls_s1 sched_s1
           sys_s1_final log_s1);
    [unfold SIZE_MOD; lia | vm_compute; reflexivity | vm_compute; reflexivity].
Defined.

(** C10: on an unbuffered channel, when every allocation succeeds, every
    schedule runs without undefined behaviour, and in every state it
    reaches [count = 1] implies that the buffer pointer is not null and
    that [buffer[0]] can be read: no section of [channel_recv] dereferences
    a null pointer. *)
Theorem unbuffered_slot_allocated
    (env : create_env) (ch : Channel) (calls : list call) (sched : schedule) :
  channel_create env 0 = Some ch ->
  allocs_succeed sched ->
  exists s log,
    run sched (boot ch calls) = Some (s, log)
    /\ capacity (chan s) = 0
    /\ 0 <= count (chan s) <= 1
    /\ (count (chan s) = 1 ->
          buffer (chan s) <> None
          /\ exists v, load (buffer (chan s)) 0 = Some v)
    /\ (forall h pc, exists ch' pc' a,
          channel_recv h pc (chan s) = Some (ch', pc', a)).
Proof.
  intros Hcreate Hallocs.
  assert (Hcap : 0 <= 0 < SIZE_MOD) by (unfold SIZE_MOD; lia).
  pose proof (boot_ok ch calls (channel_create_ok _ _ _ Hcap Hcreate)) as Hok.
  assert (Hmem : mem_ok ch).
  { apply (channel_create_mem_ok env 0); auto; try lia.
    all: unfold SIZE_MOD; simpl; lia. }
  assert (Hcapacity : capacity ch = 0).
  { unfold channel_create in Hcreate.
    destruct (struct_alloc env); [|discriminate]. now injection Hcreate as <-. }
  destruct (run_defined sched (boot ch calls) Hok Hmem) as (s & log & Hrun & _);
    [auto|].
  destruct (run_sound _ _ _ _ Hok Hrun) as ([Hch _] & Hsame & _).
  simpl in Hsame. rewrite Hcapacity in Hsame.
  exists s, log. split; [assumption|]. split; [assumption|].
  split; [split; [apply (ok_count _ Hch) | now apply (ok_unbuffered _ Hch)]|].
  split.
  - intros Hone. destruct (ok_pending _ Hch 0) as [v Hv]; [lia|].
    rewrite slot_unbuffered in Hv by assumption.
    split; [|eauto]. intros Hnull. rewrite Hnull in Hv. discriminate.
  - intros h pc. destruct (channel_recv_defined h pc (chan s) Hch)
      as (ch' & pc' & a & E & _). eauto.
Qed.

Lemma unbuffered_slot_allocated_witness :
  channel_create env_good 0 = Some (created 0)
  /\ allocs_succeed sched_s5
  /\ exists s log,
       run sched_s5 (boot (created 0) calls_s5) = Some (s, log)
       /\ capacity (chan s) = 0
       /\ 0 <= count (chan s) <= 1
       /\ (count (chan s) = 1 ->
             buffer (chan s) <> None
             /\ exists v, load (buffer (chan s)) 0 = Some v)
       /\ (forall h pc, exists ch' pc' a,
             channel_recv h pc (chan s) = Some (ch', pc', a)).
Proof.
  assert (Hallocs : allocs_succeed sched_s5).
  { unfold allocs_succeed, sched_s5. repeat constructor; discriminate. }
  split; [reflexivity|]. split; [exact Hallocs|].
  apply (unbuffered_slot_allocated env_good (created 0) calls_s5 sched_s5);
    [reflexivity | exact Hallocs].
Defined.

(** Scenario S5 run on the code: the receiver parks, the sender deposits
    42.0 and parks, the receiver takes 42.0, the sender returns 0. *)
Example rendezvous_s5 :
  run sched_s5 (boot (created 0) calls_s5) = Some (sys_s5_final, log_s5).
Proof. vm_compute. reflexivity. Qed.

(** C5, as stated, fails: when [pthread_mutex_init] reports [ENOMEM] and
    both allocations succeed, [channel_create(4)] still returns a non-null
    handle. *)
Lemma create_ignores_init_failure :
  create_failure env_mutex_fails 4
  /\ channel_create env_mutex_fails 4 <> None.
Proof.
  split; [|discriminate].
  right. right. left. discriminate.
Qed.

(** C5, amended: [channel_create] returns the null handle when the
    allocation of the channel struct fails.  When the struct and (for a
    positive capacity) the ring are allocated, it returns a non-null handle
    to an open, empty channel of that capacity, whatever
    [pthread_mutex_init] and [pthread_cond_init] returned: their results
    are not inspected. *)
Theorem channel_create_null_on_struct_failure
    (env : create_env) (cap : Z) :
  (0 < cap -> ring_alloc env <> MallocNull) ->
  (struct_alloc env = false -> channel_create env cap = None)
  /\ (struct_alloc env = true ->
        exists ch,
          channel_create env cap = Some ch
          /\ read_idx ch = 0 /\ write_idx ch = 0 /\ count ch = 0
          /\ capacity ch = cap /\ closed ch = CHANNEL_OPEN
          /\ (0 < cap -> buffer ch <> None))
  /\ (forall a b c,
        channel_create
          (mkCreateEnv (struct_alloc env) a b c (ring_alloc env)) cap
        = channel_create env cap).
Proof.
  intros Hring. unfold channel_create. split; [|split].
  - now intros ->.
  - intros ->. simpl. eexists. split; [reflexivity|]. simpl.
    repeat split; auto. intros Hpos.
    destruct (Z.ltb_spec 0 cap); [|lia].
    destruct (ring_alloc env); [now destruct (Hring Hpos) | discriminate].
  - intros a b c. reflexivity.
Qed.

Lemma channel_create_null_on_struct_failure_witness :
  (0 < 4 -> ring_alloc env_mutex_fails <> MallocNull)
  /\ (struct_alloc env_mutex_fails = false ->
        channel_create env_mutex_fails 4 = None)
  /\ (struct_alloc env_mutex_fails = true ->
        exists ch,
          channel_create env_mutex_fails 4 = Some ch
          /\ read_idx ch = 0 /\ write_idx ch = 0 /\ count ch = 0
          /\ capacity ch = 4 /\ closed ch = CHANNEL_OPEN
          /\ (0 < 4 -> buffer ch <> None))
  /\ (forall a b c,
        channel_create
          (mkCreateEnv (struct_alloc env_mutex_fails) a b c
             (ring_alloc env_mutex_fails)) 4
        = channel_create env_mutex_fails 4).
Proof.
  split; [discriminate|].
  apply (channel_create_null_on_struct_failure env_mutex_fails 4).
  discriminate.
Defined.

(** C1, the code at the failing input: [channel_create(0)], one thread in
    [channel_send(ch, 42.0)], another calling [channel_close(ch)] while the
    sender is parked at line 109, and no receiver at all.  The send
    returns 0 although [count] is still 1, nothing was taken, and 42.0 is
    still in the slot. *)
Theorem unbuffered_send_ok_unreceived :
  run sched_close_race (boot (created 0) calls_close_race)
    = Some (sys_close_race_final, log_close_race)
  /\ tasks sys_close_race_final !! 0%nat
     = Some (Send ChanHandle 42%float (SendRet 0))
  /\ count (chan sys_close_race_final) = 1
  /\ takes log_close_race = []
  /\ contents (chan sys_close_race_final) = [42%float].
Proof. vm_compute. repeat split; reflexivity. Qed.

(** * Further properties of the code *)

(** ** Runs, cut in two *)

Lemma run_app sched1 : forall sched2 s,
  run (sched1 ++ sched2) s =
  match run sched1 s with
  | Some (s1, log1) =>
      match run sched2 s1 with
      | Some (s2, log2) => Some (s2, log1 ++ log2)
      | None => None
      end
  | None => None
  end.
Proof.
  induction sched1 as [|[i m] rest IH]; intros sched2 s; simpl.
  - destruct (run sched2 s) as [[s2 log2]|]; reflexivity.
  - destruct (step i m s) as [[s1 a]|]; [|reflexivity].
    rewrite IH. destruct (run rest s1) as [[s2 log2]|]; [|reflexivity].
    destruct (run sched2 s2) as [[s3 log3]|]; reflexivity.
Qed.

Lemma in_deposits log v :
  In v (deposits log) <-> exists i, In (i, Deposit v) log.
Proof.
  unfold deposits. induction log as [|[j a] log IH]; simpl.
  - split; [intros [] | intros [_ []]].
  - destruct a as [|w|w]; simpl; rewrite IH; split.
    + intros [i Hi]. eauto.
    + intros [i [[=]|Hi]]. eauto.
    + intros [->|[i Hi]]; eauto.
    + intros [i [[= _ ->]|Hi]]; eauto.
    + intros [i Hi]. eauto.
    + intros [i [[=]|Hi]]. eauto.
Qed.

Lemma in_takes log i v : In (i, Take v) log -> In v (takes log).
Proof.
  unfold takes. induction log as [|[j a] log IH]; simpl; [auto|].
  intros [[= -> ->]|Hin]; simpl; [now left|].
  destruct a; simpl; auto.
Qed.

Lemma in_depositors log i :
  In i (depositors log) -> exists v, In (i, Deposit v) log.
Proof.
  unfold depositors. induction log as [|[j a] log IH]; simpl; [intros []|].
  destruct a as [|w|w]; simpl.
  - intros [v Hv]%IH. eauto.
  - intros [->|[v Hv]%IH]; eauto.
  - intros [v Hv]%IH. eauto.
Qed.

Lemma in_takers log i :
  In i (takers log) -> exists v, In (i, Take v) log.
Proof.
  unfold takers. induction log as [|[j a] log IH]; simpl; [intros []|].
  destruct a as [|w|w]; simpl.
  - intros [v Hv]%IH. eauto.
  - intros [v Hv]%IH. eauto.
  - intros [->|[v Hv]%IH]; eauto.
Qed.

(** ** A send, from its call to its return *)

(** The first sections of a send: it stays short of the deposit, is turned
    away with -1, or deposits its argument. *)
Lemma channel_send_undeposited h v m pc ch ch' pc' a :
  undeposited pc ->
  channel_send h v m pc ch = Some (ch', pc', a) ->
  (a = Quiet /\ ch' = ch /\ (undeposited pc' \/ pc' = SendRet (-1)))
  \/ (a = Deposit v /\ deposited pc').
Proof.
  unfold undeposited, deposited.
  intros [->|[->| ->]]; simpl;
    unfold send_locked, send_buffered, send_prior_loop,
           send_unbuffered_deposit, send_handoff;
    intros H; crunch; auto 10.
Qed.

Lemma run_send_status sched : forall s s' log i h v pc r,
  run sched s = Some (s', log) ->
  tasks s !! i = Some (Send h v pc) -> undeposited pc ->
  tasks s' !! i = Some (Send h v (SendRet r)) ->
  (r = 0 /\ In (i, Deposit v) log)
  \/ (r = -1 /\ forall w, ~ In (i, Deposit w) log).
Proof.
  induction sched as [|[j m] rest IH]; intros s s' log i h v pc r; simpl.
  - intros [= <- <-] Hi Hpc Hret. rewrite Hi in Hret. injection Hret as ->.
    destruct Hpc as [?|[?|?]]; discriminate.
  - destruct (step j m s) as [[s1 a]|] eqn:Hst; [|discriminate].
    destruct (run rest s1) as [[s2 log']|] eqn:Hrun; [|discriminate].
    intros [= <- <-] Hi Hpc Hret.
    assert (Hall : run ((j, m) :: rest) s = Some (s2, (j, a) :: log'))
      by (simpl; now rewrite Hst, Hrun).
    destruct (decide (j = i)) as [->|Hne].
    + destruct (step_ran _ _ _ _ _ _ Hst Hi) as (t' & Hs & Hi').
      cbn [task_section] in Hs.
      destruct (channel_send h v m pc (chan s)) as [[[c q] b]|] eqn:Hsend;
        [|discriminate].
      injection Hs as _ <- <-.
      destruct (channel_send_undeposited _ _ _ _ _ _ _ _ Hpc Hsend)
        as [(-> & _ & [Hq| ->])|(-> & Hq)].
      * destruct (IH _ _ _ _ _ _ _ _ Hrun Hi' Hq Hret)
          as [(-> & Hin)|(-> & Hno)]; [left | right]; split; auto.
        -- now right.
        -- intros w [[=]|Hin]. now apply (Hno w).
      * assert (tasks s2 !! i = Some (Send h v (SendRet (-1)))) as E
          by (apply (run_returned _ _ _ _ _ _ Hrun Hi' I)).
        rewrite E in Hret. injection Hret as <-. right. split; [reflexivity|].
        eapply run_rejected; eauto.
      * destruct (run_deposited _ _ _ _ _ _ _ _ Hrun Hi' Hq) as (_ & q' & E & Hq').
        rewrite E in Hret. injection Hret as ->.
        destruct Hq' as [?|[= ->]]; [discriminate|].
        left. split; [reflexivity | now left].
    + rewrite <- (step_other _ _ _ _ _ _ Hst Hne) in Hi.
      destruct (IH _ _ _ _ _ _ _ _ Hrun Hi Hpc Hret)
        as [(-> & Hin)|(-> & Hno)]; [left | right]; split; auto.
      * now right.
      * intros w [[= -> _]|Hin]; [contradiction | now apply (Hno w)].
Qed.

Lemma boot_lookup ch calls sched s log i t :
  run sched (boot ch calls) = Some (s, log) -> tasks s !! i = Some t ->
  calls !! i = Some (call_of t)
  /\ tasks (boot ch calls) !! i = Some (start (call_of t)).
Proof.
  intros Hrun Hi.
  assert (Hc : calls !! i = Some (call_of t)).
  { rewrite <- (boot_calls ch calls), <- (run_calls _ _ _ _ Hrun).
    now rewrite list_lookup_fmap, Hi. }
  split; [assumption|]. simpl. now rewrite list_lookup_fmap, Hc.
Qed.

(** X2: the status of a send tells whether its value went into the
    channel.  In any execution, whatever the state of the channel at the
    start, a [channel_send] that has returned has returned 0 or -1; it
    returned 0 exactly when one of its sections deposited its argument, and
    -1 exactly when none of them deposited anything. *)
Theorem send_status_tells_deposit
    (ch : Channel) (calls : list call) (sched : schedule) (s : system)
    (log : list (nat * action)) (i : nat) (h : handle) (v : double) (r : Z) :
  run sched (boot ch calls) = Some (s, log) ->
  tasks s !! i = Some (Send h v (SendRet r)) ->
  (r = 0 /\ In (i, Deposit v) log)
  \/ (r = -1 /\ forall w, ~ In (i, Deposit w) log).
Proof.
  intros Hrun Hret.
  destruct (boot_lookup _ _ _ _ _ _ _ Hrun Hret) as (_ & Hi).
  apply (run_send_status _ _ _ _ _ _ _ _ _ Hrun Hi); [|assumption].
  now left.
Qed.

Lemma send_status_tells_deposit_witness :
  run (sched_s3_before ++ sched_s3_after) (boot (created 2) calls_s3)
    = Some (sys_s3_final, log_s3_before ++ log_s3_after)
  /\ tasks sys_s3_final !! 6%nat = Some (Send ChanHandle 9%float (SendRet (-1)))
  /\ ((-1 = 0 /\ In (6%nat, Deposit 9%float) (log_s3_before ++ log_s3_after))
      \/ (-1 = -1
          /\ forall w, ~ In (6%nat, Deposit w) (log_s3_before ++ log_s3_after))).
Proof.
  split; [vm_compute; reflexivity|]. split; [reflexivity|].
  apply (send_status_tells_deposit (created 2) calls_s3
           (sched_s3_before ++ sched_s3_after) sys_s3_final
           (log_s3_before ++ log_s3_after) 6 ChanHandle 9%float (-1));
    vm_compute; reflexivity.
Defined.

(** ** A receive, from its call to its return *)

Lemma channel_recv_unreturned h pc ch ch' pc' a :
  (forall r, pc <> RecvRet r) ->
  channel_recv h pc ch = Some (ch', pc', a) ->
  (a = Quiet /\ (pc' = RecvWaitData \/ pc' = RecvRet zero))
  \/ (exists v, a = Take v /\ pc' = RecvRet v).
Proof.
  intros Hpc. destruct pc as [| |r]; [| |now destruct (Hpc r)]; simpl;
    unfold recv_locked, recv_dequeue; intros H; crunch; eauto.
Qed.

Lemma run_recv_value sched : forall s s' log i h pc v,
  run sched s = Some (s', log) ->
  tasks s !! i = Some (Recv h pc) -> (forall r, pc <> RecvRet r) ->
  tasks s' !! i = Some (Recv h (RecvRet v)) ->
  v = zero \/ In (i, Take v) log.
Proof.
  induction sched as [|[j m] rest IH]; intros s s' log i h pc v; simpl.
  - intros [= <- <-] Hi Hpc Hret. rewrite Hi in Hret. injection Hret as ->.
    now destruct (Hpc v).
  - destruct (step j m s) as [[s1 a]|] eqn:Hst; [|discriminate].
    destruct (run rest s1) as [[s2 log']|] eqn:Hrun; [|discriminate].
    intros [= <- <-] Hi Hpc Hret.
    destruct (decide (j = i)) as [->|Hne].
    + destruct (step_ran _ _ _ _ _ _ Hst Hi) as (t' & Hs & Hi').
      cbn [task_section] in Hs.
      destruct (channel_recv h pc (chan s)) as [[[c q] b]|] eqn:Hrecv;
        [|discriminate].
      injection Hs as _ <- <-.
      destruct (channel_recv_unreturned _ _ _ _ _ _ Hpc Hrecv)
        as [(-> & [->| ->])|(w & -> & ->)].
      * assert (Hw : forall r, RecvWaitData <> RecvRet r) by discriminate.
        destruct (IH _ _ _ _ _ _ _ Hrun Hi' Hw Hret);
          [now left | right; now right].
      * rewrite (run_returned _ _ _ _ _ _ Hrun Hi' I) in Hret.
        injection Hret as <-. now left.
      * rewrite (run_returned _ _ _ _ _ _ Hrun Hi' I) in Hret.
        injection Hret as <-. right. now left.
    + rewrite <- (step_other _ _ _ _ _ _ Hst Hne) in Hi.
      destruct (IH _ _ _ _ _ _ _ Hrun Hi Hpc Hret); [now left | right; now right].
Qed.

(** X3: a receive never returns a value out of thin air.  In any execution
    from the created channel, the value a [channel_recv] has returned is
    0.0 or the argument of a [channel_send] call whose deposit precedes the
    return: no receive hands out uninitialised ring memory. *)
Theorem recv_returns_sent_or_zero
    (env : create_env) (cap : Z) (ch : Channel) (calls : list call)
    (sched : schedule) (s : system) (log : list (nat * action))
    (i : nat) (h : handle) (v : double) :
  0 <= cap < SIZE_MOD ->
  channel_create env cap = Some ch ->
  run sched (boot ch calls) = Some (s, log) ->
  tasks s !! i = Some (Recv h (RecvRet v)) ->
  v = zero
  \/ exists j h', calls !! j = Some (CallSend h' v) /\ In (j, Deposit v) log.
Proof.
  intros Hcap Hcreate Hrun Hret.
  destruct (boot_lookup _ _ _ _ _ _ _ Hrun Hret) as (_ & Hi).
  assert (Hcall : forall r, RecvCall <> RecvRet r) by discriminate.
  destruct (run_recv_value _ _ _ _ _ _ _ _ Hrun Hi Hcall Hret)
    as [?|Htake]; [now left | right].
  pose proof (boot_ok ch calls (channel_create_ok _ _ _ Hcap Hcreate)) as Hok.
  destruct (run_sound _ _ _ _ Hok Hrun) as (_ & _ & Hq).
  assert (Hempty : contents (chan (boot ch calls)) = []).
  { unfold channel_create in Hcreate.
    destruct (struct_alloc env); [|discriminate]. now injection Hcreate as <-. }
  rewrite Hempty in Hq. simpl in Hq.
  assert (Hin : In v (deposits log)).
  { rewrite Hq. apply in_or_app. left. eapply in_takes; eauto. }
  apply in_deposits in Hin as [j Hj].
  destruct (run_deposits _ _ _ _ _ _ Hrun Hj) as [h' Hc].
  rewrite boot_calls in Hc. eauto.
Qed.

Lemma recv_returns_sent_or_zero_witness :
  0 <= 4 < SIZE_MOD
  /\ channel_create env_good 4 = Some (created 4)
  /\ run sched_s1 (boot (created 4) calls_s1) = Some (sys_s1_final, log_s1)
  /\ tasks sys_s1_final !! 4%nat = Some (Recv ChanHandle (RecvRet 2%float))
  /\ (2%float = zero
      \/ exists j h', calls_s1 !! j = Some (CallSend h' 2%float)
                      /\ In (j, Deposit 2%float) log_s1).
Proof.
  split; [unfold SIZE_MOD; lia|]. split; [vm_compute; reflexivity|].
  split; [vm_compute; reflexivity|]. split; [reflexivity|].
  apply (recv_returns_sent_or_zero env_good 4 (created 4) calls_s1 sched_s1
           sys_s1_final log_s1 4 ChanHandle 2%float);
    [unfold SIZE_MOD; lia | vm_compute; reflexivity | vm_compute; reflexivity
    | reflexivity].
Defined.

(** ** The closed flag and the calls of channel_close *)

Lemma task_section_flag m t ch ch' t' a :
  task_section m t ch = Some (ch', t', a) ->
  (closed ch' = closed ch
   /\ (t' = Close ChanHandle true -> t = Close ChanHandle true))
  \/ (t = Close ChanHandle false /\ t' = Close ChanHandle true
      /\ closed ch' = CHANNEL_CLOSED).
Proof.
  destruct t as [h v pc|h pc|h [|]]; simpl.
  - destruct (channel_send h v m pc ch) as [[[c q] b]|] eqn:Hs; [|discriminate].
    intros [= <- <- <-]. left. split; [|discriminate].
    destruct (channel_send_shape _ _ _ _ _ _ _ _ Hs) as [(_ & -> & _)|_]; auto.
    revert Hs. destruct pc; simpl;
      unfold send_locked, send_buffered, send_prior_loop,
             send_unbuffered_deposit, send_handoff;
      intros H; crunch; auto.
  - destruct (channel_recv h pc ch) as [[[c q] b]|] eqn:Hs; [|discriminate].
    intros [= <- <- <-]. left. split; [|discriminate].
    destruct (channel_recv_shape _ _ _ _ _ _ Hs) as [(_ & ->)|(? & _ & _ & ? & _)];
      auto.
  - intros [= <- <- <-]. left. auto.
  - intros [= <- <- <-]. destruct h; simpl; [left | right]; auto.
    split; [reflexivity | discriminate].
Qed.

(** The flag is set exactly when a [channel_close] on the channel has run. *)
Lemma step_flag i m s s' a :
  step i m s = Some (s', a) ->
  (closed (chan s) = CHANNEL_OPEN
   /\ ~ (exists j, tasks s !! j = Some (Close ChanHandle true))
   \/ closed (chan s) = CHANNEL_CLOSED
      /\ exists j, tasks s !! j = Some (Close ChanHandle true)) ->
  closed (chan s') = CHANNEL_OPEN
  /\ ~ (exists j, tasks s' !! j = Some (Close ChanHandle true))
  \/ closed (chan s') = CHANNEL_CLOSED
     /\ exists j, tasks s' !! j = Some (Close ChanHandle true).
Proof.
  intros Hst Hinv.
  destruct (step_lookup _ _ _ _ _ Hst)
    as [(_ & -> & _)|(t & t' & Hi & Hs & Hts)]; [assumption|].
  assert (Hlen : (i < length (tasks s))%nat) by (eapply lookup_lt_Some; eauto).
  destruct (task_section_flag _ _ _ _ _ _ Hs) as [(Hc & Hback)|(-> & -> & Hc)].
  - rewrite Hc, Hts. destruct Hinv as [(Hopen & Hnone)|(Hshut & j & Hj)].
    + left. split; [assumption|]. intros [j Hj]. apply Hnone.
      destruct (decide (i = j)) as [<-|Hne].
      * rewrite list_lookup_insert_eq in Hj by assumption.
        injection Hj as Ht'. exists i. now rewrite Hi, (Hback Ht').
      * rewrite list_lookup_insert_ne in Hj by assumption. eauto.
    + right. split; [assumption|]. exists j.
      destruct (decide (i = j)) as [<-|Hne].
      * rewrite Hi in Hj. injection Hj as ->.
        rewrite task_section_returned in Hs by exact I. injection Hs as _ <- _.
        now apply list_lookup_insert_eq.
      * now rewrite list_lookup_insert_ne.
  - right. split; [assumption|]. exists i. rewrite Hts.
    now apply list_lookup_insert_eq.
Qed.

Lemma run_flag sched : forall s s' log,
  run sched s = Some (s', log) ->
  (closed (chan s) = CHANNEL_OPEN
   /\ ~ (exists j, tasks s !! j = Some (Close ChanHandle true))
   \/ closed (chan s) = CHANNEL_CLOSED
      /\ exists j, tasks s !! j = Some (Close ChanHandle true)) ->
  closed (chan s') = CHANNEL_OPEN
  /\ ~ (exists j, tasks s' !! j = Some (Close ChanHandle true))
  \/ closed (chan s') = CHANNEL_CLOSED
     /\ exists j, tasks s' !! j = Some (Close ChanHandle true).
Proof.
  induction sched as [|[i m] rest IH]; intros s s' log; simpl.
  - now intros [= <- <-].
  - destruct (step i m s) as [[s1 a]|] eqn:Hst; [|discriminate].
    destruct (run rest s1) as [[s2 log']|] eqn:Hrun; [|discriminate].
    intros [= <- <-] Hinv. eapply IH; eauto using step_flag.
Qed.

Lemma is_closed_exact_aux env cap ch calls sched s log :
  channel_create env cap = Some ch ->
  run sched (boot ch calls) = Some (s, log) ->
  closed (chan s) = CHANNEL_OPEN
  /\ ~ (exists j, tasks s !! j = Some (Close ChanHandle true))
  \/ closed (chan s) = CHANNEL_CLOSED
     /\ exists j, tasks s !! j = Some (Close ChanHandle true).
Proof.
  intros Hcreate Hrun. apply (run_flag _ _ _ _ Hrun). left. split.
  - unfold channel_create in Hcreate.
    destruct (struct_alloc env); [|discriminate]. now injection Hcreate as <-.
  - intros [j Hj]. simpl in Hj. rewrite list_lookup_fmap in Hj.
    destruct (calls !! j) as [[]|]; discriminate.
Qed.

(** X1: [channel_is_closed] reports exactly whether the channel has been
    closed.  In every state an execution reaches from the created channel
    it returns 0 or 1, and it returns 1 exactly when some
    [channel_close(h)] call on the channel has run; on a null handle it
    returns 1. *)
Theorem is_closed_exact
    (env : create_env) (cap : Z) (ch : Channel) (calls : list call)
    (sched : schedule) (s : system) (log : list (nat * action)) :
  channel_create env cap = Some ch ->
  run sched (boot ch calls) = Some (s, log) ->
  (channel_is_closed ChanHandle (chan s) = 0
   \/ channel_is_closed ChanHandle (chan s) = 1)
  /\ (channel_is_closed ChanHandle (chan s) = 1
      <-> exists j, tasks s !! j = Some (Close ChanHandle true))
  /\ channel_is_closed NullHandle (chan s) = 1.
Proof.
  intros Hcreate Hrun.
  assert (Hstart : closed (chan (boot ch calls)) = CHANNEL_OPEN
            /\ ~ (exists j, tasks (boot ch calls) !! j
                            = Some (Close ChanHandle true))).
  { split.
    - unfold channel_create in Hcreate.
      destruct (struct_alloc env); [|discriminate]. now injection Hcreate as <-.
    - intros [j Hj]. simpl in Hj. rewrite list_lookup_fmap in Hj.
      destruct (calls !! j) as [[]|]; discriminate. }
  simpl. unfold CHANNEL_OPEN, CHANNEL_CLOSED in *.
  destruct (run_flag _ _ _ _ Hrun (or_introl Hstart))
    as [(Hopen & Hnone)|(Hshut & Hseen)]; unfold CHANNEL_OPEN, CHANNEL_CLOSED in *.
  - rewrite Hopen. split; [now left|]. split; [|reflexivity].
    split; [discriminate | intros Hj; now destruct (Hnone Hj)].
  - rewrite Hshut. split; [now right|]. split; [|reflexivity].
    split; auto.
Qed.

Lemma is_closed_exact_witness :
  channel_create env_good 2 = Some (created 2)
  /\ run sched_s3_before (boot (created 2) calls_s3)
     = Some (sys_s3_closed, log_s3_before)
  /\ (channel_is_closed ChanHandle (chan sys_s3_closed) = 0
      \/ channel_is_closed ChanHandle (chan sys_s3_closed) = 1)
  /\ (channel_is_closed ChanHandle (chan sys_s3_closed) = 1
      <-> exists j, tasks sys_s3_closed !! j = Some (Close ChanHandle true))
  /\ channel_is_closed NullHandle (chan sys_s3_closed) = 1.
Proof.
  split; [vm_compute; reflexivity|]. split; [vm_compute; reflexivity|].
  apply (is_closed_exact env_good 2 (created 2) calls_s3 sched_s3_before
           sys_s3_closed log_s3_before); vm_compute; reflexivity.
Defined.

(** ** One deposit per send, one value per receive *)

Lemma run_returned_quiet sched : forall s s' log i t a,
  run sched s = Some (s', log) -> tasks s !! i = Some t -> returned t ->
  In (i, a) log -> a = Quiet.
Proof.
  induction sched as [|[j m] rest IH]; intros s s' log i t a; simpl.
  - intros [= <- <-] _ _ [].
  - destruct (step j m s) as [[s1 b]|] eqn:Hst; [|discriminate].
    destruct (run rest s1) as [[s2 log']|] eqn:Hrun; [|discriminate].
    intros [= <- <-] Hi Hret [[= -> ->]|Hin].
    + destruct (step_ran _ _ _ _ _ _ Hst Hi) as (t' & Hs & _).
      rewrite task_section_returned in Hs by assumption. now injection Hs.
    + eapply IH; eauto using step_returned.
Qed.

Lemma actors_cons i a log :
  depositors ((i, a) :: log)
  = match a with Deposit _ => i :: depositors log | _ => depositors log end
  /\ takers ((i, a) :: log)
    = match a with Take _ => i :: takers log | _ => takers log end.
Proof. now destruct a. Qed.

(** X6: in any execution, from any state, a [channel_send] call deposits
    at most once and a [channel_recv] call takes at most one value: no
    thread occurs twice among the depositing sections, nor twice among the
    taking sections. *)
Theorem each_call_acts_once
    (sched : schedule) (s s' : system) (log : list (nat * action)) :
  run sched s = Some (s', log) ->
  NoDup (depositors log) /\ NoDup (takers log).
Proof.
  revert s s' log.
  induction sched as [|[i m] rest IH]; intros s s' log; simpl.
  - intros [= <- <-]. split; constructor.
  - destruct (step i m s) as [[s1 a]|] eqn:Hst; [|discriminate].
    destruct (run rest s1) as [[s2 log']|] eqn:Hrun; [|discriminate].
    intros [= <- <-]. destruct (IH _ _ _ Hrun) as (Hd & Ht).
    destruct (actors_cons i a log') as [-> ->].
    destruct a as [|v|v]; auto.
    + split; [|assumption]. constructor; [|assumption].
      intros [w Hw]%list_elem_of_In%in_depositors.
      destruct (step_action_task _ _ _ _ _ Hst) as [t Hi]; [discriminate|].
      destruct (step_ran _ _ _ _ _ _ Hst Hi) as (t' & Hs & Hi').
      apply task_section_deposit in Hs as (h & pc & pc' & _ & -> & Hdep & _).
      destruct (run_deposited _ _ _ _ _ _ _ _ Hrun Hi' Hdep) as (Hno & _).
      now apply (Hno w).
    + split; [assumption|]. constructor; [|assumption].
      intros [w Hw]%list_elem_of_In%in_takers.
      destruct (step_action_task _ _ _ _ _ Hst) as [t Hi]; [discriminate|].
      destruct (step_ran _ _ _ _ _ _ Hst Hi) as (t' & Hs & Hi').
      apply task_section_take in Hs as [h ->].
      now pose proof (run_returned_quiet _ _ _ _ _ _ _ Hrun Hi' I Hw).
Qed.

Lemma each_call_acts_once_witness :
  run sched_s1 (boot (created 4) calls_s1) = Some (sys_s1_final, log_s1)
  /\ NoDup (depositors log_s1) /\ NoDup (takers log_s1).
Proof.
  split; [vm_compute; reflexivity|].
  apply (each_call_acts_once sched_s1 (boot (created 4) calls_s1)
           sys_s1_final log_s1).
  vm_compute. reflexivity.
Defined.

(** ** Senders woken by a close *)

Lemma channel_send_closed_status h v m pc ch :
  closed ch <> 0 ->
  channel_send h v m pc ch = Some (ch, SendRet (closed_status pc), Quiet).
Proof.
  intros Hc.
  destruct (channel_send_closed h v m pc ch Hc) as (pc' & E & H1 & H2 & H3 & H4).
  destruct pc; cbn [closed_status];
    [rewrite <- (H1 eq_refl) | rewrite <- (H2 eq_refl)
    | rewrite <- (H3 eq_refl) | rewrite <- (H4 eq_refl) | reflexivity];
    exact E.
Qed.

Lemma run_closed_senders sched : forall s s' log i h v pc,
  closed (chan s) <> 0 -> run sched s = Some (s', log) ->
  tasks s !! i = Some (Send h v pc) -> In i (map fst sched) ->
  tasks s' !! i = Some (Send h v (SendRet (closed_status pc))).
Proof.
  induction sched as [|[j m] rest IH]; intros s s' log i h v pc Hc; simpl.
  - intros _ _ [].
  - destruct (step j m s) as [[s1 a]|] eqn:Hst; [|discriminate].
    destruct (run rest s1) as [[s2 log']|] eqn:Hrun; [|discriminate].
    intros [= <- <-] Hi Hin.
    assert (Hc1 : closed (chan s1) <> 0).
    { destruct (step_closed _ _ _ _ _ Hst) as [->| ->]; [assumption|].
      unfold CHANNEL_CLOSED. lia. }
    destruct (decide (j = i)) as [->|Hne].
    + destruct (step_ran _ _ _ _ _ _ Hst Hi) as (t' & Hs & Hi').
      cbn [task_section] in Hs.
      rewrite (channel_send_closed_status h v m pc (chan s) Hc) in Hs.
      injection Hs as _ <- _.
      apply (run_returned _ _ _ _ _ _ Hrun Hi' I).
    + destruct Hin as [?|Hin]; [contradiction|].
      apply (IH _ _ _ _ _ _ _ Hc1 Hrun); [|assumption].
      now rewrite (step_other _ _ _ _ _ _ Hst Hne).
Qed.

(** X7: a close releases every sender.  Once the channel is closed, a send
    returns in the first section it runs and deposits nothing: with -1 when
    it comes from its call, from the wait for space (line 66) or from the
    wait behind a parked value (line 88), and with 0 when it comes from
    the hand-off wait (line 109). *)
Theorem close_releases_senders
    (sched : schedule) (s s' : system) (log : list (nat * action))
    (i : nat) (h : handle) (v : double) (pc : send_pc) :
  closed (chan s) <> 0 ->
  run sched s = Some (s', log) ->
  tasks s !! i = Some (Send h v pc) ->
  In i (map fst sched) ->
  tasks s' !! i = Some (Send h v (SendRet (closed_status pc)))
  /\ forall w, ~ In (i, Deposit w) log.
Proof.
  intros Hc Hrun Hi Hin. split.
  - eapply run_closed_senders; eauto.
  - destruct (run_closed_sends _ _ _ _ Hc Hrun) as (Hdep & _).
    intros w Hw. assert (Hv : In w (deposits log)) by (apply in_deposits; eauto).
    now rewrite Hdep in Hv.
Qed.

Lemma close_releases_senders_witness :
  closed (chan sys_s4_closed) <> 0
  /\ run sched_s4_after sys_s4_closed = Some (sys_s4_final, log_s4_after)
  /\ tasks sys_s4_closed !! 1%nat = Some (Send ChanHandle 2%float SendWaitSpace)
  /\ In 1%nat (map fst sched_s4_after)
  /\ tasks sys_s4_final !! 1%nat
     = Some (Send ChanHandle 2%float (SendRet (closed_status SendWaitSpace)))
  /\ forall w, ~ In (1%nat, Deposit w) log_s4_after.
Proof.
  split; [discriminate|]. split; [vm_compute; reflexivity|].
  split; [reflexivity|]. split; [now left|].
  apply (close_releases_senders sched_s4_after sys_s4_closed sys_s4_final
           log_s4_after 1 ChanHandle 2%float SendWaitSpace);
    [discriminate | vm_compute; reflexivity | reflexivity | now left].
Defined.

(** Scenario S4 run on the code from the created channel. *)
Example backpressure_s4 :
  run sched_s4_before (boot (created 1) calls_s4)
    = Some (sys_s4_closed, log_s4_before).
Proof. vm_compute. reflexivity. Qed.

(** ** The unbuffered channel as a queue of at most one value *)

(** X4: an unbuffered channel is a FIFO of at most one value.  In every
    state an execution reaches from [channel_create(0)], the values taken
    followed by the values pending are the values deposited, in order, and
    at most one value is pending; a deposited value is the argument of its
    send call and a taken value the return value of its receive call.  When
    every allocation succeeds the execution has no undefined behaviour. *)
Theorem fifo_unbuffered
    (env : create_env) (ch : Channel) (calls : list call) (sched : schedule) :
  channel_create env 0 = Some ch ->
  (forall s log,
     run sched (boot ch calls) = Some (s, log) ->
     deposits log = takes log ++ contents (chan s)
     /\ (length (contents (chan s)) <= 1)%nat
     /\ Z.of_nat (length (deposits log))
        = Z.of_nat (length (takes log)) + count (chan s)
     /\ (forall i v, In (i, Deposit v) log ->
           exists h, calls !! i = Some (CallSend h v))
     /\ (forall i v, In (i, Take v) log ->
           exists h, tasks s !! i = Some (Recv h (RecvRet v))))
  /\ (allocs_succeed sched ->
      exists s log, run sched (boot ch calls) = Some (s, log)).
Proof.
  intros Hcreate.
  assert (Hcap : 0 <= 0 < SIZE_MOD) by (unfold SIZE_MOD; lia).
  pose proof (boot_ok ch calls (channel_create_ok _ _ _ Hcap Hcreate)) as Hok.
  assert (Hfields : capacity ch = 0 /\ contents (chan (boot ch calls)) = []).
  { unfold channel_create in Hcreate.
    destruct (struct_alloc env); [|discriminate]. now injection Hcreate as <-. }
  destruct Hfields as (Hcapacity & Hempty).
  split.
  - intros s log Hrun.
    destruct (run_sound _ _ _ _ Hok Hrun) as ([Hch _] & Hsame & Hq).
    rewrite Hempty in Hq. simpl in Hq, Hsame. rewrite Hcapacity in Hsame.
    pose proof (ok_count _ Hch) as Hn.
    pose proof (ok_unbuffered _ Hch Hsame) as Hone.
    split; [assumption|]. split; [rewrite contents_length; lia|].
    split; [rewrite Hq, length_app, contents_length; lia|]. split.
    + intros i v Hin. destruct (run_deposits _ _ _ _ _ _ Hrun Hin) as [h Hi].
      rewrite boot_calls in Hi. eauto.
    + intros i v Hin. eapply run_takes; eauto.
  - intros Hallocs.
    assert (Hmem : mem_ok ch).
    { apply (channel_create_mem_ok env 0); auto; try lia.
      all: unfold SIZE_MOD; simpl; lia. }
    destruct (run_defined sched (boot ch calls) Hok Hmem) as (s & log & Hrun & _);
      eauto.
Qed.

Lemma fifo_unbuffered_witness :
  channel_create env_good 0 = Some (created 0)
  /\ run sched_s5 (boot (created 0) calls_s5) = Some (sys_s5_final, log_s5)
  /\ (forall s log,
        run sched_s5 (boot (created 0) calls_s5) = Some (s, log) ->
        deposits log = takes log ++ contents (chan s)
        /\ (length (contents (chan s)) <= 1)%nat
        /\ Z.of_nat (length (deposits log))
           = Z.of_nat (length (takes log)) + count (chan s)
        /\ (forall i v, In (i, Deposit v) log ->
              exists h, calls_s5 !! i = Some (CallSend h v))
        /\ (forall i v, In (i, Take v) log ->
              exists h, tasks s !! i = Some (Recv h (RecvRet v))))
  /\ (allocs_succeed sched_s5 ->
      exists s log, run sched_s5 (boot (created 0) calls_s5) = Some (s, log)).
Proof.
  split; [vm_compute; reflexivity|]. split; [vm_compute; reflexivity|].
  apply (fifo_unbuffered env_good (created 0) calls_s5 sched_s5).
  vm_compute. reflexivity.
Defined.

(** ** The rendezvous of an unbuffered send *)

Lemma takes_cons i a log :
  takes ((i, a) :: log)
  = match a with Take v => v :: takes log | _ => takes log end.
Proof. now destruct a. Qed.

Lemma deposits_cons i a log :
  deposits ((i, a) :: log)
  = match a with Deposit v => v :: deposits log | _ => deposits log end.
Proof. now destruct a. Qed.

(** How the number of pending values moves with an action. *)
Lemma effect_pending a ch ch' :
  effect a ch ch' ->
  match a with
  | Quiet => length (contents ch') = length (contents ch)
  | Deposit _ => length (contents ch') = S (length (contents ch))
  | Take _ => length (contents ch) = S (length (contents ch'))
  end.
Proof.
  intros [_ He]. destruct a as [|v|v].
  - destruct He as [->| ->]; [reflexivity|]. now rewrite contents_set_closed.
  - destruct He as (_ & _ & ->). rewrite length_app. simpl. lia.
  - destruct He as (_ & ->). reflexivity.
Qed.

Lemma unbuffered_deposit_parks h v m pc ch ch' pc' w :
  capacity ch = 0 -> pc_ok (capacity ch) (Send h v pc) ->
  channel_send h v m pc ch = Some (ch', pc', Deposit w) ->
  pc' = SendWaitHandoff.
Proof.
  intros Hcap Hpc. rewrite Hcap in Hpc.
  destruct pc; simpl in *; try lia;
    unfold send_locked, send_buffered, send_prior_loop,
           send_unbuffered_deposit, send_handoff;
    rewrite ?Hcap; intros H; crunch; auto.
Qed.

(** A sender in the hand-off wait that returns 0 with the channel still
    open has seen everything pending taken. *)
Lemma run_handoff_taken sched : forall s s' log i h v,
  sys_ok s -> run sched s = Some (s', log) ->
  tasks s !! i = Some (Send h v SendWaitHandoff) ->
  tasks s' !! i = Some (Send h v (SendRet 0)) ->
  closed (chan s') = 0 ->
  (length (contents (chan s)) <= length (takes log))%nat.
Proof.
  induction sched as [|[j m] rest IH]; intros s s' log i h v Hok; simpl.
  - intros [= <- <-] Hi Hret. rewrite Hi in Hret. discriminate.
  - destruct (step j m s) as [[s1 a]|] eqn:Hst; [|discriminate].
    destruct (run rest s1) as [[s2 log']|] eqn:Hrun; [|discriminate].
    intros [= <- <-] Hi Hret Hopen.
    destruct (step_sound _ _ _ _ _ Hok Hst) as (Hok1 & Heff).
    pose proof (effect_pending _ _ _ Heff) as Hlen.
    rewrite takes_cons.
    destruct (decide (j = i)) as [->|Hne].
    + destruct (step_ran _ _ _ _ _ _ Hst Hi) as (t' & Hs & Hi').
      cbn [task_section channel_send] in Hs.
      destruct (send_handoff (chan s)) as [[[c q] b]|] eqn:Hh; [|discriminate].
      injection Hs as Hc1 <- <-.
      pose proof Hh as Hh'.
      apply send_handoff_sound in Hh' as (Hc & -> & [->| ->]).
      * rewrite <- Hlen. eapply IH; eauto.
      * unfold send_handoff in Hh.
        destruct (Z.ltb_spec 0 (count (chan s))) as [Hbusy|Hfree];
          [|rewrite contents_length; lia].
        destruct (Z.eqb_spec (closed (chan s)) 0) as [Hop|Hshut];
          [discriminate|].
        exfalso. apply (run_closed _ _ _ _ Hrun); [|assumption].
        now rewrite <- Hc1, Hc.
    + rewrite <- (step_other _ _ _ _ _ _ Hst Hne) in Hi.
      pose proof (IH _ _ _ _ _ _ Hok1 Hrun Hi Hret Hopen) as Hle.
      destruct a as [|w|w]; simpl; lia.
Qed.

(** A send that returns 0 with the channel still open: its deposit is in
    the log, and more values were taken than were ahead of it. *)
Lemma run_send_taken sched : forall s s' log i h v pc,
  sys_ok s -> capacity (chan s) = 0 ->
  run sched s = Some (s', log) ->
  tasks s !! i = Some (Send h v pc) -> undeposited pc ->
  tasks s' !! i = Some (Send h v (SendRet 0)) ->
  closed (chan s') = 0 ->
  exists l1 l2,
    log = l1 ++ (i, Deposit v) :: l2
    /\ (length (contents (chan s)) + length (deposits l1)
        < length (takes log))%nat.
Proof.
  induction sched as [|[j m] rest IH]; intros s s' log i h v pc Hok Hcap; simpl.
  - intros [= <- <-] Hi Hpc Hret. rewrite Hi in Hret. injection Hret as ->.
    destruct Hpc as [?|[?|?]]; discriminate.
  - destruct (step j m s) as [[s1 a]|] eqn:Hst; [|discriminate].
    destruct (run rest s1) as [[s2 log']|] eqn:Hrun; [|discriminate].
    intros [= <- <-] Hi Hpc Hret Hopen.
    destruct (step_sound _ _ _ _ _ Hok Hst) as (Hok1 & Heff).
    pose proof (effect_pending _ _ _ Heff) as Hlen.
    assert (Hcap1 : capacity (chan s1) = 0) by (destruct Heff; congruence).
    rewrite takes_cons.
    destruct (decide (j = i)) as [->|Hne].
    + destruct (step_ran _ _ _ _ _ _ Hst Hi) as (t' & Hs & Hi').
      cbn [task_section] in Hs.
      destruct (channel_send h v m pc (chan s)) as [[[c q] b]|] eqn:Hsend;
        [|discriminate].
      injection Hs as _ <- <-.
      destruct (channel_send_undeposited _ _ _ _ _ _ _ _ Hpc Hsend)
        as [(-> & _ & [Hq| ->])|(-> & Hq)].
      * destruct (IH _ _ _ _ _ _ _ Hok1 Hcap1 Hrun Hi' Hq Hret Hopen)
          as (l1 & l2 & -> & Hlt).
        exists ((i, Quiet) :: l1), l2. split; [reflexivity|].
        rewrite deposits_cons. lia.
      * rewrite (run_returned _ _ _ _ _ _ Hrun Hi' I) in Hret. discriminate.
      * assert (q = SendWaitHandoff) as ->.
        { apply (unbuffered_deposit_parks h v m pc (chan s) c q v Hcap);
            [|exact Hsend].
          eapply Forall_lookup_1; [apply (ok_tasks _ Hok) | exact Hi]. }
        pose proof (run_handoff_taken _ _ _ _ _ _ _ Hok1 Hrun Hi' Hret Hopen).
        exists [], log'. split; [reflexivity|]. simpl. lia.
    + rewrite <- (step_other _ _ _ _ _ _ Hst Hne) in Hi.
      destruct (IH _ _ _ _ _ _ _ Hok1 Hcap1 Hrun Hi Hpc Hret Hopen)
        as (l1 & l2 & -> & Hlt).
      exists ((j, a) :: l1), l2. split; [reflexivity|].
      rewrite deposits_cons. destruct a as [|w|w]; simpl in *; lia.
Qed.

Lemma takes_in log v : In v (takes log) -> exists i, In (i, Take v) log.
Proof.
  induction log as [|[j a] log IH]; [intros []|]. rewrite takes_cons.
  destruct a as [|w|w].
  - intros [i Hi]%IH. exists i. now right.
  - intros [i Hi]%IH. exists i. now right.
  - intros [->|[i Hi]%IH]; [exists j; now left | exists i; now right].
Qed.

Lemma deposits_app l1 l2 : deposits (l1 ++ l2) = deposits l1 ++ deposits l2.
Proof.
  induction l1 as [|[j a] l1 IH]; [reflexivity|]. simpl app.
  rewrite !deposits_cons, IH. now destruct a.
Qed.

(** X5: the rendezvous of an unbuffered send.  In any execution from
    [channel_create(0)], when a [channel_send(v)] has returned 0 and the
    channel has not been closed, its deposit is in the log and the value at
    its place in the order of deposits has been taken: some
    [channel_recv] call has returned [v]. *)
Theorem unbuffered_rendezvous
    (env : create_env) (ch : Channel) (calls : list call) (sched : schedule)
    (s : system) (log : list (nat * action))
    (i : nat) (h : handle) (v : double) :
  channel_create env 0 = Some ch ->
  run sched (boot ch calls) = Some (s, log) ->
  tasks s !! i = Some (Send h v (SendRet 0)) ->
  closed (chan s) = CHANNEL_OPEN ->
  exists l1 l2,
    log = l1 ++ (i, Deposit v) :: l2
    /\ takes log !! length (deposits l1) = Some v
    /\ exists j h', tasks s !! j = Some (Recv h' (RecvRet v)).
Proof.
  intros Hcreate Hrun Hret Hopen.
  assert (Hcap : 0 <= 0 < SIZE_MOD) by (unfold SIZE_MOD; lia).
  pose proof (boot_ok ch calls (channel_create_ok _ _ _ Hcap Hcreate)) as Hok.
  assert (Hfields : capacity ch = 0 /\ contents (chan (boot ch calls)) = []).
  { unfold channel_create in Hcreate.
    destruct (struct_alloc env); [|discriminate]. now injection Hcreate as <-. }
  destruct Hfields as (Hcapacity & Hempty).
  destruct (boot_lookup _ _ _ _ _ _ _ Hrun Hret) as (_ & Hi).
  destruct (run_send_taken _ _ _ _ _ _ _ _ Hok Hcapacity Hrun Hi) with (2 := Hret)
    as (l1 & l2 & Hlog & Hlt); [now left | assumption |].
  rewrite Hempty in Hlt. simpl in Hlt.
  destruct (run_sound _ _ _ _ Hok Hrun) as (_ & _ & Hq).
  rewrite Hempty in Hq. simpl in Hq.
  assert (Hv : takes log !! length (deposits l1) = Some v).
  { rewrite <- (lookup_app_l _ (contents (chan s))) by assumption.
    rewrite <- Hq, Hlog, deposits_app, deposits_cons.
    apply list_lookup_middle. reflexivity. }
  exists l1, l2. split; [assumption|]. split; [assumption|].
  assert (Hin : In v (takes log)).
  { apply list_elem_of_In. eapply list_elem_of_lookup_2; eauto. }
  apply takes_in in Hin as [j Hj].
  destruct (run_takes _ _ _ _ _ _ Hrun Hj) as [h' Hh]. eauto.
Qed.

Lemma unbuffered_rendezvous_witness :
  channel_create env_good 0 = Some (created 0)
  /\ run sched_s5 (boot (created 0) calls_s5) = Some (sys_s5_final, log_s5)
  /\ tasks sys_s5_final !! 0%nat = Some (Send ChanHandle 42%float (SendRet 0))
  /\ closed (chan sys_s5_final) = CHANNEL_OPEN
  /\ exists l1 l2,
       log_s5 = l1 ++ (0%nat, Deposit 42%float) :: l2
       /\ takes log_s5 !! length (deposits l1) = Some 42%float
       /\ exists j h', tasks sys_s5_final !! j = Some (Recv h' (RecvRet 42%float)).
Proof.
  split; [vm_compute; reflexivity|]. split; [vm_compute; reflexivity|].
  split; [reflexivity|]. split; [reflexivity|].
  apply (unbuffered_rendezvous env_good (created 0) calls_s5 sched_s5
           sys_s5_final log_s5 0 ChanHandle 42%float);
    [vm_compute; reflexivity | vm_compute; reflexivity | reflexivity
    | reflexivity].
Defined.

(** ** The buffer block through the life of a channel *)










(** ** The allocations of channel_create and channel_send *)

Lemma ring_bytes_wrap cap :
  0 <= cap -> wrap (cap * SIZEOF_DOUBLE) / SIZEOF_DOUBLE = cap mod RING_LIMIT.
Proof.
  intros Hcap. unfold wrap, SIZE_MOD, SIZEOF_DOUBLE, RING_LIMIT.
  replace (2 ^ 64) with (2 ^ 61 * 8) by reflexivity.
  rewrite Z.mul_mod_distr_r by lia. apply Z.div_mul. lia.
Qed.

(** X10: the size of the ring wraps.  [channel_create(cap)] asks [malloc]
    for [cap * 8] bytes computed in [size_t], so the ring it gets has
    [cap mod 2^61] slots: [cap] slots exactly when [cap < 2^61], fewer
    otherwise, while [capacity] is set to [cap].  When [cap] is a multiple
    of [2^61] the ring has no slot at all and the first send writes outside
    the block. *)
Theorem create_ring_slots
    (env : create_env) (cap : Z) (ch : Channel) (junk : double) :
  0 < cap < SIZE_MOD ->
  ring_alloc env = MallocBlock junk ->
  channel_create env cap = Some ch ->
  capacity ch = cap
  /\ exists l,
       buffer ch = Some l
       /\ Z.of_nat (length l) = cap mod RING_LIMIT
       /\ (Z.of_nat (length l) = cap <-> cap < RING_LIMIT)
       /\ (cap mod RING_LIMIT = 0 ->
           forall v m, channel_send ChanHandle v m SendCall ch = None).
Proof.
  intros Hcap Hring. unfold channel_create.
  destruct (struct_alloc env); [|discriminate]. simpl. intros [= <-]. simpl.
  split; [reflexivity|].
  destruct (Z.ltb_spec 0 cap); [|lia]. rewrite Hring. simpl.
  eexists. split; [reflexivity|].
  assert (Hpos : 0 < RING_LIMIT) by reflexivity.
  pose proof (Z.mod_pos_bound cap RING_LIMIT Hpos) as Hmod.
  assert (Hlen : Z.of_nat (length (replicate
                   (Z.to_nat (wrap (cap * SIZEOF_DOUBLE) / SIZEOF_DOUBLE)) junk))
                 = cap mod RING_LIMIT).
  { rewrite length_replicate, ring_bytes_wrap by lia. lia. }
  split; [exact Hlen|]. split.
  - rewrite Hlen. split.
    + intros E. rewrite <- E. lia.
    + intros Hsmall. apply Z.mod_small. lia.
  - intros Hzero v m. unfold send_locked, send_buffered. simpl.
    destruct (Z.ltb_spec 0 cap); [|lia].
    destruct (Z.leb_spec cap 0); [lia|]. simpl.
    unfold store. rewrite Hlen, Hzero. reflexivity.
Qed.

Lemma create_ring_slots_witness :
  0 < RING_LIMIT < SIZE_MOD
  /\ ring_alloc env_good = MallocBlock 0%float
  /\ channel_create env_good RING_LIMIT = Some (created RING_LIMIT)
  /\ capacity (created RING_LIMIT) = RING_LIMIT
  /\ exists l,
       buffer (created RING_LIMIT) = Some l
       /\ Z.of_nat (length l) = RING_LIMIT mod RING_LIMIT
       /\ (Z.of_nat (length l) = RING_LIMIT <-> RING_LIMIT < RING_LIMIT)
       /\ (RING_LIMIT mod RING_LIMIT = 0 ->
           forall v m,
             channel_send ChanHandle v m SendCall (created RING_LIMIT) = None).
Proof.
  split; [vm_compute; split; reflexivity|]. split; [reflexivity|].
  split; [vm_compute; reflexivity|].
  apply (create_ring_slots env_good RING_LIMIT (created RING_LIMIT) 0%float);
    [vm_compute; split; reflexivity | reflexivity | vm_compute; reflexivity].
Defined.

(** X11: the allocations after the first are not checked.  When the
    [malloc] of the ring fails, or for capacity 0 where no ring is asked
    for, [channel_create] returns a non-null handle to a channel whose
    buffer pointer is null.  On that channel a receive parks without
    touching the buffer, and the first [channel_send] writes through the
    null pointer, unless the channel is unbuffered and the [malloc] of
    line 99 succeeds. *)
Theorem send_through_null_buffer (env : create_env) (cap : Z) :
  0 <= cap < SIZE_MOD ->
  struct_alloc env = true ->
  (0 < cap -> ring_alloc env = MallocNull) ->
  exists ch,
    channel_create env cap = Some ch
    /\ buffer ch = None
    /\ (forall v m, (cap = 0 -> m = MallocNull) ->
          channel_send ChanHandle v m SendCall ch = None)
    /\ (forall v junk, cap = 0 ->
          exists ch',
            channel_send ChanHandle v (MallocBlock junk) SendCall ch
              = Some (ch', SendWaitHandoff, Deposit v)
            /\ buffer ch' = Some [v])
    /\ channel_recv ChanHandle RecvCall ch = Some (ch, RecvWaitData, Quiet).
Proof.
  intros Hcap Hstruct Hring. unfold channel_create. rewrite Hstruct. simpl.
  eexists. split; [reflexivity|]. simpl.
  destruct (Z.ltb_spec 0 cap) as [Hpos|Hzero].
  - rewrite (Hring Hpos). simpl. split; [reflexivity|]. split; [|split].
    + intros v m _. unfold send_locked, send_buffered. simpl.
      destruct (Z.ltb_spec 0 cap); [|lia].
      destruct (Z.leb_spec cap 0); [lia | reflexivity].
    + intros v junk ->. lia.
    + reflexivity.
  - assert (cap = 0) as -> by lia. split; [reflexivity|]. split; [|split].
    + intros v m Hm. now rewrite (Hm eq_refl).
    + intros v junk _. eexists. split; reflexivity.
    + reflexivity.
Qed.

Lemma send_through_null_buffer_witness :
  0 <= 4 < SIZE_MOD
  /\ struct_alloc env_ring_fails = true
  /\ (0 < 4 -> ring_alloc env_ring_fails = MallocNull)
  /\ exists ch,
       channel_create env_ring_fails 4 = Some ch
       /\ buffer ch = None
       /\ (forall v m, (4 = 0 -> m = MallocNull) ->
             channel_send ChanHandle v m SendCall ch = None)
       /\ (forall v junk, 4 = 0 ->
             exists ch',
               channel_send ChanHandle v (MallocBlock junk) SendCall ch
                 = Some (ch', SendWaitHandoff, Deposit v)
               /\ buffer ch' = Some [v])
       /\ channel_recv ChanHandle RecvCall ch = Some (ch, RecvWaitData, Quiet).
Proof.
  split; [vm_compute; split; [discriminate | reflexivity]|].
  split; [reflexivity|]. split; [reflexivity|].
  apply (send_through_null_buffer env_ring_fails 4);
    [vm_compute; split; [discriminate | reflexivity] | reflexivity
    | reflexivity].
Defined.

(** ** The closed signals are never spurious *)

Lemma channel_send_rejects_closed v m pc ch ch' a :
  (forall r, pc <> SendRet r) ->
  channel_send ChanHandle v m pc ch = Some (ch', SendRet (-1), a) ->
  closed ch <> 0.
Proof.
  intros Hpc. destruct pc as [| | | |r]; [| | | |now destruct (Hpc r)]; simpl;
    unfold send_locked, send_buffered, send_prior_loop,
           send_unbuffered_deposit, send_handoff;
    intros H; crunch; cases; try discriminate; auto.
Qed.

Lemma channel_recv_absent pc ch ch' v :
  (forall r, pc <> RecvRet r) ->
  channel_recv ChanHandle pc ch = Some (ch', RecvRet v, Quiet) ->
  closed ch <> 0 /\ count ch = 0 /\ ch' = ch /\ v = zero.
Proof.
  intros Hpc. destruct pc as [| |r]; [| |now destruct (Hpc r)]; simpl;
    unfold recv_locked, recv_dequeue;
    intros H; crunch; cases; try discriminate; auto.
Qed.

Lemma run_send_rejected_closed sched : forall s s' log i v pc,
  run sched s = Some (s', log) ->
  tasks s !! i = Some (Send ChanHandle v pc) -> (forall r, pc <> SendRet r) ->
  tasks s' !! i = Some (Send ChanHandle v (SendRet (-1))) ->
  closed (chan s') <> 0.
Proof.
  induction sched as [|[j m] rest IH]; intros s s' log i v pc; simpl.
  - intros [= <- <-] Hi Hpc Hret. rewrite Hi in Hret. injection Hret as ->.
    now destruct (Hpc (-1)).
  - destruct (step j m s) as [[s1 a]|] eqn:Hst; [|discriminate].
    destruct (run rest s1) as [[s2 log']|] eqn:Hrun; [|discriminate].
    intros [= <- <-] Hi Hpc Hret.
    destruct (decide (j = i)) as [->|Hne].
    + destruct (step_ran _ _ _ _ _ _ Hst Hi) as (t' & Hs & Hi').
      cbn [task_section] in Hs.
      destruct (channel_send ChanHandle v m pc (chan s)) as [[[c q] b]|] eqn:Hsend;
        [|discriminate].
      injection Hs as _ <- _.
      destruct q as [| | | |r];
        try (eapply IH; eauto; discriminate).
      rewrite (run_returned _ _ _ _ _ _ Hrun Hi' I) in Hret.
      injection Hret as ->.
      apply (run_closed _ _ _ _ Hrun).
      assert (Hc : closed (chan s) <> 0)
        by (eapply channel_send_rejects_closed; eauto).
      destruct (step_closed _ _ _ _ _ Hst) as [->| ->]; [assumption|].
      unfold CHANNEL_CLOSED. lia.
    + rewrite <- (step_other _ _ _ _ _ _ Hst Hne) in Hi. eapply IH; eauto.
Qed.

(** X13: -1 is returned for a closed channel only.  In any execution, when
    a [channel_send] on a non-null handle has returned -1, the channel is
    closed: some [channel_close] call on it has run. *)
Theorem send_rejected_only_when_closed
    (env : create_env) (cap : Z) (ch : Channel) (calls : list call)
    (sched : schedule) (s : system) (log : list (nat * action))
    (i : nat) (v : double) :
  channel_create env cap = Some ch ->
  run sched (boot ch calls) = Some (s, log) ->
  tasks s !! i = Some (Send ChanHandle v (SendRet (-1))) ->
  closed (chan s) = CHANNEL_CLOSED
  /\ exists j, tasks s !! j = Some (Close ChanHandle true).
Proof.
  intros Hcreate Hrun Hret.
  destruct (boot_lookup _ _ _ _ _ _ _ Hrun Hret) as (_ & Hi).
  assert (Hcall : forall r, SendCall <> SendRet r) by discriminate.
  pose proof (run_send_rejected_closed _ _ _ _ _ _ _ Hrun Hi Hcall Hret) as Hc.
  destruct (is_closed_exact_aux env cap ch calls sched s log Hcreate Hrun)
    as [(Hopen & _)|(Hshut & Hseen)]; [|auto].
  rewrite Hopen in Hc. now destruct Hc.
Qed.

Lemma send_rejected_only_when_closed_witness :
  channel_create env_good 1 = Some (created 1)
  /\ run (sched_s4_before ++ sched_s4_after) (boot (created 1) calls_s4)
     = Some (sys_s4_final, log_s4_before ++ log_s4_after)
  /\ tasks sys_s4_final !! 1%nat = Some (Send ChanHandle 2%float (SendRet (-1)))
  /\ closed (chan sys_s4_final) = CHANNEL_CLOSED
  /\ exists j, tasks sys_s4_final !! j = Some (Close ChanHandle true).
Proof.
  split; [vm_compute; reflexivity|]. split; [vm_compute; reflexivity|].
  split; [reflexivity|].
  apply (send_rejected_only_when_closed env_good 1 (created 1) calls_s4
           (sched_s4_before ++ sched_s4_after) sys_s4_final
           (log_s4_before ++ log_s4_after) 1 2%float);
    [vm_compute; reflexivity | vm_compute; reflexivity | reflexivity].
Defined.

Lemma run_recv_absent sched : forall s s' log i pc v,
  sys_ok s -> run sched s = Some (s', log) ->
  tasks s !! i = Some (Recv ChanHandle pc) -> (forall r, pc <> RecvRet r) ->
  tasks s' !! i = Some (Recv ChanHandle (RecvRet v)) ->
  (forall w, ~ In (i, Take w) log) ->
  v = zero /\ closed (chan s') <> 0 /\ count (chan s') = 0.
Proof.
  induction sched as [|[j m] rest IH]; intros s s' log i pc v Hok; simpl.
  - intros [= <- <-] Hi Hpc Hret. rewrite Hi in Hret. injection Hret as ->.
    now destruct (Hpc v).
  - destruct (step j m s) as [[s1 a]|] eqn:Hst; [|discriminate].
    destruct (run rest s1) as [[s2 log']|] eqn:Hrun; [|discriminate].
    intros [= <- <-] Hi Hpc Hret Hno.
    destruct (step_sound _ _ _ _ _ Hok Hst) as (Hok1 & _).
    assert (Hno' : forall w, ~ In (i, Take w) log')
      by (intros w Hw; apply (Hno w); now right).
    destruct (decide (j = i)) as [->|Hne].
    + destruct (step_ran _ _ _ _ _ _ Hst Hi) as (t' & Hs & Hi').
      cbn [task_section] in Hs.
      destruct (channel_recv ChanHandle pc (chan s)) as [[[c q] b]|] eqn:Hrecv;
        [|discriminate].
      injection Hs as Hc <- <-.
      destruct (channel_recv_unreturned _ _ _ _ _ _ Hpc Hrecv)
        as [(-> & [->| ->])|(w & -> & _)].
      * eapply IH; eauto; discriminate.
      * apply channel_recv_absent in Hrecv as (Hshut & Hzero & -> & _);
          [|assumption].
        rewrite (run_returned _ _ _ _ _ _ Hrun Hi' I) in Hret.
        injection Hret as <-. split; [reflexivity|].
        rewrite Hc in Hshut, Hzero.
        destruct (run_drained _ _ _ _ Hok1 Hshut Hzero Hrun) as (-> & _).
        auto.
      * destruct (Hno w). now left.
    + rewrite <- (step_other _ _ _ _ _ _ Hst Hne) in Hi. eapply IH; eauto.
Qed.

(** X12: the end-of-stream signal is never spurious and loses nothing.
    In any execution from the created channel, when a [channel_recv] on a
    non-null handle has returned without taking a value, it has returned
    0.0, the channel is closed and empty, and every value ever deposited
    has been handed to a receiver, in the order of the deposits. *)
Theorem recv_absent_only_when_drained
    (env : create_env) (cap : Z) (ch : Channel) (calls : list call)
    (sched : schedule) (s : system) (log : list (nat * action))
    (i : nat) (v : double) :
  0 <= cap < SIZE_MOD ->
  channel_create env cap = Some ch ->
  run sched (boot ch calls) = Some (s, log) ->
  tasks s !! i = Some (Recv ChanHandle (RecvRet v)) ->
  (forall w, ~ In (i, Take w) log) ->
  v = zero
  /\ closed (chan s) = CHANNEL_CLOSED
  /\ count (chan s) = 0
  /\ deposits log = takes log.
Proof.
  intros Hcap Hcreate Hrun Hret Hno.
  pose proof (boot_ok ch calls (channel_create_ok _ _ _ Hcap Hcreate)) as Hok.
  destruct (boot_lookup _ _ _ _ _ _ _ Hrun Hret) as (_ & Hi).
  assert (Hcall : forall r, RecvCall <> RecvRet r) by discriminate.
  destruct (run_recv_absent _ _ _ _ _ _ _ Hok Hrun Hi Hcall Hret Hno)
    as (-> & Hshut & Hzero).
  destruct (run_sound _ _ _ _ Hok Hrun) as ([Hch _] & _ & Hq).
  split; [reflexivity|]. split; [|split; [assumption|]].
  - destruct (ok_closed _ Hch) as [E|E]; [|assumption].
    unfold CHANNEL_OPEN in E. contradiction.
  - assert (Hempty : contents (chan (boot ch calls)) = []).
    { unfold channel_create in Hcreate.
      destruct (struct_alloc env); [|discriminate]. now injection Hcreate as <-. }
    rewrite Hempty in Hq. simpl in Hq.
    assert (Hnil : contents (chan s) = []).
    { apply length_zero_iff_nil. rewrite contents_length, Hzero. reflexivity. }
    now rewrite Hq, Hnil, app_nil_r.
Qed.

Lemma recv_absent_only_when_drained_witness :
  0 <= 1 < SIZE_MOD
  /\ channel_create env_good 1 = Some (created 1)
  /\ run (sched_s4_before ++ sched_s4_after) (boot (created 1) calls_s4)
     = Some (sys_s4_final, log_s4_before ++ log_s4_after)
  /\ tasks sys_s4_final !! 4%nat = Some (Recv ChanHandle (RecvRet 0%float))
  /\ (forall w, ~ In (4%nat, Take w) (log_s4_before ++ log_s4_after))
  /\ 0%float = zero
  /\ closed (chan sys_s4_final) = CHANNEL_CLOSED
  /\ count (chan sys_s4_final) = 0
  /\ deposits (log_s4_before ++ log_s4_after)
     = takes (log_s4_before ++ log_s4_after).
Proof.
  assert (Hno : forall w, ~ In (4%nat, Take w) (log_s4_before ++ log_s4_after)).
  { intros w Hw. simpl in Hw.
    repeat (destruct Hw as [Hw|Hw]; [discriminate|]). exact Hw. }
  split; [vm_compute; split; [discriminate | reflexivity]|].
  split; [vm_compute; reflexivity|]. split; [vm_compute; reflexivity|].
  split; [reflexivity|]. split; [exact Hno|].
  apply (recv_absent_only_when_drained env_good 1 (created 1) calls_s4
           (sched_s4_before ++ sched_s4_after) sys_s4_final
           (log_s4_before ++ log_s4_after) 4 0%float);
    [vm_compute; split; [discriminate | reflexivity] | vm_compute; reflexivity
    | vm_compute; reflexivity | reflexivity | exact Hno].
Defined.

(** ** What a section does when it need not wait *)

Lemma count_pending ch :
  chan_ok ch -> count ch = Z.of_nat (length (contents ch)).
Proof.
  intros Hok. rewrite contents_length. pose proof (ok_count _ Hok). lia.
Qed.

(** A receive that finds a value takes the oldest one and returns it. *)
Lemma channel_recv_takes pc ch :
  chan_ok ch -> count ch <> 0 -> (forall r, pc <> RecvRet r) ->
  exists ch' v,
    channel_recv ChanHandle pc ch = Some (ch', RecvRet v, Take v)
    /\ contents ch = v :: contents ch'.
Proof.
  intros Hok Hn Hpc.
  assert (Hlocked : exists ch' v,
            recv_locked ch = Some (ch', RecvRet v, Take v)
            /\ contents ch = v :: contents ch').
  { destruct (recv_locked_defined ch Hok) as (ch' & pc' & a & Hr & _).
    pose proof Hr as Hr'. unfold recv_locked in Hr'.
    destruct (Z.eqb_spec (count ch) 0) as [|_]; [contradiction|].
    simpl in Hr'.
    destruct (recv_dequeue_sound _ _ _ _ Hok Hn Hr')
      as (_ & (_ & He) & v & -> & ->).
    exists ch', v. split; [assumption | apply He]. }
  destruct pc as [| |r]; simpl; [assumption | assumption | now destruct (Hpc r)].
Qed.

(** A receive that finds the channel open and empty parks. *)
Lemma channel_recv_parks pc ch :
  count ch = 0 -> closed ch = CHANNEL_OPEN -> (forall r, pc <> RecvRet r) ->
  channel_recv ChanHandle pc ch = Some (ch, RecvWaitData, Quiet).
Proof.
  intros Hn Hc Hpc.
  assert (Hlocked : recv_locked ch = Some (ch, RecvWaitData, Quiet)).
  { unfold recv_locked. now rewrite Hn, Hc. }
  destruct pc as [| |r]; simpl; [assumption | assumption | now destruct (Hpc r)].
Qed.

(** A buffered send that finds room deposits and returns 0; one that finds
    the ring full parks. *)
Lemma channel_send_room v m pc ch :
  chan_ok ch -> mem_ok ch -> 0 < capacity ch -> closed ch = CHANNEL_OPEN ->
  pc = SendCall \/ pc = SendWaitSpace ->
  (count ch < capacity ch ->
   exists ch',
     channel_send ChanHandle v m pc ch = Some (ch', SendRet 0, Deposit v)
     /\ contents ch' = contents ch ++ [v]
     /\ chan_ok ch' /\ mem_ok ch'
     /\ capacity ch' = capacity ch /\ closed ch' = CHANNEL_OPEN)
  /\ (count ch = capacity ch ->
      channel_send ChanHandle v m pc ch = Some (ch, SendWaitSpace, Quiet)).
Proof.
  intros Hok Hmem Hcap Hopen Hpc.
  assert (Hsame : channel_send ChanHandle v m pc ch = send_buffered ch v).
  { destruct Hpc as [->| ->]; simpl; [|reflexivity].
    unfold send_locked. rewrite Hopen. simpl.
    destruct (Z.ltb_spec 0 (capacity ch)); [reflexivity | lia]. }
  rewrite Hsame. split.
  - intros Hroom.
    destruct (send_buffered_defined ch v Hok Hmem Hcap) as (ch' & pc' & a & E & Hmem').
    assert (pc' = SendRet 0 /\ a = Deposit v) as (-> & ->).
    { revert E. unfold send_buffered. rewrite Hopen.
      destruct (Z.leb_spec (capacity ch) (count ch)); [lia|]. simpl.
      destruct (store _ _ _); [|discriminate].
      destruct (size_rem _ _); [|discriminate]. now intros [= _ <- <-]. }
    destruct (send_buffered_sound _ _ _ _ _ Hok Hcap E)
      as (Hok' & (Hc' & _ & Hopen' & Hcont) & _).
    exists ch'. do 4 (split; [assumption|]). split; assumption.
  - intros Hfull. unfold send_buffered. rewrite Hopen.
    destruct (Z.leb_spec (capacity ch) (count ch)); [reflexivity | lia].
Qed.

(** ** A receive, from its call to its return: what it took *)

Lemma run_recv_outcome sched : forall s s' log i pc v,
  sys_ok s -> run sched s = Some (s', log) ->
  tasks s !! i = Some (Recv ChanHandle pc) -> (forall r, pc <> RecvRet r) ->
  tasks s' !! i = Some (Recv ChanHandle (RecvRet v)) ->
  In (i, Take v) log
  \/ (v = zero /\ closed (chan s') <> 0 /\ count (chan s') = 0).
Proof.
  induction sched as [|[j m] rest IH]; intros s s' log i pc v Hok; simpl.
  - intros [= <- <-] Hi Hpc Hret. rewrite Hi in Hret. injection Hret as ->.
    now destruct (Hpc v).
  - destruct (step j m s) as [[s1 a]|] eqn:Hst; [|discriminate].
    destruct (run rest s1) as [[s2 log']|] eqn:Hrun; [|discriminate].
    intros [= <- <-] Hi Hpc Hret.
    destruct (step_sound _ _ _ _ _ Hok Hst) as (Hok1 & _).
    destruct (decide (j = i)) as [->|Hne].
    + destruct (step_ran _ _ _ _ _ _ Hst Hi) as (t' & Hs & Hi').
      cbn [task_section] in Hs.
      destruct (channel_recv ChanHandle pc (chan s)) as [[[c q] b]|] eqn:Hrecv;
        [|discriminate].
      injection Hs as Hc <- <-.
      destruct (channel_recv_unreturned _ _ _ _ _ _ Hpc Hrecv)
        as [(-> & [->| ->])|(w & -> & ->)].
      * assert (Hw : forall r, RecvWaitData <> RecvRet r) by discriminate.
        destruct (IH _ _ _ _ _ _ Hok1 Hrun Hi' Hw Hret) as [Hin|Hdr];
          [left; now right | now right].
      * apply channel_recv_absent in Hrecv as (Hshut & Hzero & -> & _);
          [|assumption].
        rewrite (run_returned _ _ _ _ _ _ Hrun Hi' I) in Hret.
        injection Hret as <-. right. split; [reflexivity|].
        rewrite Hc in Hshut, Hzero.
        destruct (run_drained _ _ _ _ Hok1 Hshut Hzero Hrun) as (-> & _).
        auto.
      * rewrite (run_returned _ _ _ _ _ _ Hrun Hi' I) in Hret.
        injection Hret as <-. left. now left.
    + rewrite <- (step_other _ _ _ _ _ _ Hst Hne) in Hi.
      destruct (IH _ _ _ _ _ _ Hok1 Hrun Hi Hpc Hret) as [Hin|Hdr];
        [left; now right | now right].
Qed.

(** ** One thread sending, then receiving *)

Lemma step_send_room i m s v :
  sys_ok s -> mem_ok (chan s) -> 0 < capacity (chan s) ->
  closed (chan s) = CHANNEL_OPEN -> count (chan s) < capacity (chan s) ->
  tasks s !! i = Some (Send ChanHandle v SendCall) ->
  exists s',
    step i m s = Some (s', Deposit v)
    /\ tasks s' = <[i := Send ChanHandle v (SendRet 0)]> (tasks s)
    /\ sys_ok s' /\ mem_ok (chan s')
    /\ capacity (chan s') = capacity (chan s)
    /\ closed (chan s') = CHANNEL_OPEN
    /\ contents (chan s') = contents (chan s) ++ [v].
Proof.
  intros Hok Hmem Hcap Hopen Hroom Hi.
  destruct (channel_send_room v m SendCall (chan s) (ok_chan _ Hok) Hmem Hcap Hopen)
    as (Hdep & _); [now left|].
  destruct (Hdep Hroom) as (ch' & E & Hcont & _ & Hmem' & Hcap' & Hopen').
  assert (Hst : step i m s
                = Some (mkSystem ch' (<[i := Send ChanHandle v (SendRet 0)]> (tasks s)),
                        Deposit v)).
  { unfold step. rewrite Hi. cbn [task_section]. now rewrite E. }
  destruct (step_sound _ _ _ _ _ Hok Hst) as (Hok' & _).
  eexists. split; [exact Hst|]. simpl. auto 10.
Qed.

Lemma step_recv_takes i m s :
  sys_ok s -> count (chan s) <> 0 ->
  tasks s !! i = Some (Recv ChanHandle RecvCall) ->
  exists s' v,
    step i m s = Some (s', Take v)
    /\ tasks s' = <[i := Recv ChanHandle (RecvRet v)]> (tasks s)
    /\ sys_ok s'
    /\ contents (chan s) = v :: contents (chan s').
Proof.
  intros Hok Hn Hi.
  assert (Hcall : forall r, RecvCall <> RecvRet r) by discriminate.
  destruct (channel_recv_takes RecvCall (chan s) (ok_chan _ Hok) Hn Hcall)
    as (ch' & v & E & Hcont).
  assert (Hst : step i m s
                = Some (mkSystem ch' (<[i := Recv ChanHandle (RecvRet v)]> (tasks s)),
                        Take v)).
  { unfold step. rewrite Hi. cbn [task_section]. now rewrite E. }
  destruct (step_sound _ _ _ _ _ Hok Hst) as (Hok' & _).
  do 2 eexists. split; [exact Hst|]. simpl. auto.
Qed.

Lemma run_sends m : forall vs s n0,
  sys_ok s -> mem_ok (chan s) -> 0 < capacity (chan s) ->
  closed (chan s) = CHANNEL_OPEN ->
  Z.of_nat (length (contents (chan s))) + Z.of_nat (length vs)
    <= capacity (chan s) ->
  (forall j v, vs !! j = Some v ->
     tasks s !! (n0 + j)%nat = Some (Send ChanHandle v SendCall)) ->
  exists s' log,
    run (turns n0 (length vs) m) s = Some (s', log)
    /\ sys_ok s'
    /\ closed (chan s') = CHANNEL_OPEN
    /\ contents (chan s') = contents (chan s) ++ vs
    /\ deposits log = vs /\ takes log = []
    /\ (forall j v, vs !! j = Some v ->
          tasks s' !! (n0 + j)%nat = Some (Send ChanHandle v (SendRet 0)))
    /\ (forall j, (j < n0 \/ n0 + length vs <= j)%nat ->
          tasks s' !! j = tasks s !! j).
Proof.
  induction vs as [|v vs IH]; intros s n0 Hok Hmem Hcap Hopen Hroom Hts.
  - exists s, []. simpl. rewrite app_nil_r.
    split; [reflexivity|]. split; [assumption|]. split; [assumption|].
    do 3 (split; [reflexivity|]).
    split; [intros j w Hj; now rewrite lookup_nil in Hj | reflexivity].
  - simpl length in *. unfold turns. simpl map. fold (turns (S n0) (length vs) m).
    cbn [run].
    assert (Hi : tasks s !! n0 = Some (Send ChanHandle v SendCall)).
    { rewrite <- (Nat.add_0_r n0). now apply Hts. }
    destruct (step_send_room n0 m s v Hok Hmem Hcap Hopen) as
      (s1 & Hst & Hts1 & Hok1 & Hmem1 & Hcap1 & Hopen1 & Hcont1);
      [rewrite (count_pending _ (ok_chan _ Hok)); lia | assumption |].
    rewrite Hst.
    destruct (IH s1 (S n0) Hok1 Hmem1) as
      (s2 & log & Hrun & Hok2 & Hopen2 & Hcont2 & Hdep & Htk & Hdone & Hkeep).
    + lia.
    + assumption.
    + rewrite Hcap1, Hcont1, length_app. simpl. lia.
    + intros j w Hj. rewrite Hts1, list_lookup_insert_ne by lia.
      replace (S n0 + j)%nat with (n0 + S j)%nat by lia. now apply Hts.
    + rewrite Hrun. exists s2, ((n0, Deposit v) :: log).
      split; [reflexivity|]. split; [assumption|]. split; [assumption|].
      split; [now rewrite Hcont2, Hcont1, <- app_assoc|].
      split; [now rewrite deposits_cons, Hdep|].
      split; [now rewrite takes_cons|]. split.
      * intros [|j] w Hj; simpl in Hj.
        -- injection Hj as <-. rewrite Nat.add_0_r, Hkeep, Hts1 by lia.
           apply list_lookup_insert_eq. eapply lookup_lt_Some; eauto.
        -- replace (n0 + S j)%nat with (S n0 + j)%nat by lia. now apply Hdone.
      * intros j Hj. rewrite Hkeep, Hts1 by lia.
        apply list_lookup_insert_ne. lia.
Qed.

Lemma run_recvs m : forall vs s n0 more,
  sys_ok s -> contents (chan s) = vs ++ more ->
  (forall j, (j < length vs)%nat ->
     tasks s !! (n0 + j)%nat = Some (Recv ChanHandle RecvCall)) ->
  exists s' log,
    run (turns n0 (length vs) m) s = Some (s', log)
    /\ sys_ok s'
    /\ contents (chan s') = more
    /\ deposits log = [] /\ takes log = vs
    /\ (forall j v, vs !! j = Some v ->
          tasks s' !! (n0 + j)%nat = Some (Recv ChanHandle (RecvRet v)))
    /\ (forall j, (j < n0 \/ n0 + length vs <= j)%nat ->
          tasks s' !! j = tasks s !! j).
Proof.
  induction vs as [|v vs IH]; intros s n0 more Hok Hcont Hts.
  - exists s, []. simpl.
    split; [reflexivity|]. split; [assumption|]. split; [assumption|].
    do 2 (split; [reflexivity|]).
    split; [intros j w Hj; now rewrite lookup_nil in Hj | reflexivity].
  - simpl length in *. unfold turns. simpl map. fold (turns (S n0) (length vs) m).
    cbn [run].
    assert (Hi : tasks s !! n0 = Some (Recv ChanHandle RecvCall)).
    { rewrite <- (Nat.add_0_r n0). apply Hts. lia. }
    destruct (step_recv_takes n0 m s Hok) as (s1 & w & Hst & Hts1 & Hok1 & Hcont1);
      [|assumption|].
    { rewrite (count_pending _ (ok_chan _ Hok)), Hcont. simpl. lia. }
    rewrite Hcont in Hcont1. simpl in Hcont1. injection Hcont1 as <- Hcont1.
    rewrite Hst.
    destruct (IH s1 (S n0) more Hok1) as
      (s2 & log & Hrun & Hok2 & Hcont2 & Hdep & Htk & Hdone & Hkeep).
    + now symmetry.
    + intros j Hj. rewrite Hts1, list_lookup_insert_ne by lia.
      replace (S n0 + j)%nat with (n0 + S j)%nat by lia. apply Hts. lia.
    + rewrite Hrun. exists s2, ((n0, Take v) :: log).
      split; [reflexivity|]. split; [assumption|]. split; [assumption|].
      split; [now rewrite deposits_cons|].
      split; [now rewrite takes_cons, Htk|]. split.
      * intros [|j] u Hj; simpl in Hj.
        -- injection Hj as <-. rewrite Nat.add_0_r, Hkeep, Hts1 by lia.
           apply list_lookup_insert_eq. eapply lookup_lt_Some; eauto.
        -- replace (n0 + S j)%nat with (S n0 + j)%nat by lia. now apply Hdone.
      * intros j Hj. rewrite Hkeep, Hts1 by lia.
        apply list_lookup_insert_ne. lia.
Qed.

Lemma run_sequential ch vs m :
  chan_ok ch -> mem_ok ch -> 0 < capacity ch -> closed ch = CHANNEL_OPEN ->
  contents ch = [] -> Z.of_nat (length vs) <= capacity ch ->
  exists s log,
    run (sequential_schedule (length vs) m) (boot ch (sequential_calls vs))
      = Some (s, log)
    /\ tasks s = ((fun v => Send ChanHandle v (SendRet 0)) <$> vs)
                 ++ ((fun v => Recv ChanHandle (RecvRet v)) <$> vs)
    /\ deposits log = vs /\ takes log = vs
    /\ contents (chan s) = [].
Proof.
  intros Hok Hmem Hcap Hopen Hempty Hlen.
  pose proof (boot_ok ch (sequential_calls vs) Hok) as Hok0.
  assert (Hsends : forall j v, vs !! j = Some v ->
            tasks (boot ch (sequential_calls vs)) !! (0 + j)%nat
            = Some (Send ChanHandle v SendCall)).
  { intros j v Hj. simpl. unfold sequential_calls.
    rewrite list_lookup_fmap, lookup_app_l, list_lookup_fmap, Hj; [reflexivity|].
    rewrite length_fmap. eapply lookup_lt_Some; eauto. }
  assert (Hrecvs : forall j, (j < length vs)%nat ->
            tasks (boot ch (sequential_calls vs)) !! (length vs + j)%nat
            = Some (Recv ChanHandle RecvCall)).
  { intros j Hj. simpl. unfold sequential_calls.
    rewrite list_lookup_fmap, lookup_app_r by (rewrite length_fmap; lia).
    rewrite length_fmap. replace (length vs + j - length vs)%nat with j by lia.
    rewrite list_lookup_fmap.
    destruct (lookup_lt_is_Some_2 vs j Hj) as [v ->]. reflexivity. }
  assert (Hsize : length (tasks (boot ch (sequential_calls vs)))
                  = (length vs + length vs)%nat).
  { simpl. unfold sequential_calls.
    now rewrite length_fmap, length_app, !length_fmap. }
  destruct (run_sends m vs (boot ch (sequential_calls vs)) 0 Hok0 Hmem Hcap Hopen)
    as (s1 & log1 & Hrun1 & Hok1 & _ & Hcont1 & Hdep1 & Htk1 & Hdone1 & Hkeep1);
    [simpl; rewrite Hempty; simpl; lia | exact Hsends |].
  simpl chan in Hcont1. rewrite Hempty in Hcont1. simpl in Hcont1.
  destruct (run_recvs m vs s1 (length vs) [] Hok1) as
    (s2 & log2 & Hrun2 & Hok2 & Hcont2 & Hdep2 & Htk2 & Hdone2 & Hkeep2).
  { now rewrite app_nil_r. }
  { intros j Hj. rewrite Hkeep1 by lia. now apply Hrecvs. }
  exists s2, (log1 ++ log2). unfold sequential_schedule.
  rewrite run_app, Hrun1, Hrun2.
  split; [reflexivity|]. split; [|split; [|split]].
  - apply list_eq. intros i.
    destruct (Nat.lt_ge_cases i (length vs)) as [Hi|Hi].
    + destruct (lookup_lt_is_Some_2 vs i Hi) as [v Hv].
      rewrite Hkeep2 by lia.
      rewrite (Hdone1 i v Hv : tasks s1 !! i = _).
      rewrite lookup_app_l by (rewrite length_fmap; exact Hi).
      now rewrite list_lookup_fmap, Hv.
    + rewrite lookup_app_r by (rewrite length_fmap; exact Hi).
      rewrite length_fmap.
      destruct (Nat.lt_ge_cases (i - length vs) (length vs)) as [Hj|Hj].
      * destruct (lookup_lt_is_Some_2 vs (i - length vs) Hj) as [v Hv].
        rewrite list_lookup_fmap, Hv. simpl.
        replace i with (length vs + (i - length vs))%nat at 1 by lia.
        now apply Hdone2.
      * rewrite Hkeep2, Hkeep1 by lia.
        rewrite (lookup_ge_None_2 (tasks _) i) by (rewrite Hsize; lia).
        symmetry. apply lookup_ge_None_2. rewrite length_fmap. exact Hj.
  - rewrite deposits_app, Hdep1, Hdep2. apply app_nil_r.
  - assert (Ht : takes (log1 ++ log2) = takes log1 ++ takes log2).
    { clear. induction log1 as [|[j a] l IH]; [reflexivity|]. simpl app.
      rewrite !takes_cons, IH. now destruct a. }
    now rewrite Ht, Htk1, Htk2.
  - assumption.
Qed.

(** C2: FIFO on a buffered channel of capacity [k > 0].

    In every state any interleaving of any calls reaches from the created
    channel: the values taken, followed by the values still pending, are
    the values deposited, in the order of the deposits (the order in which
    the sends held the mutex); a deposited value is the argument of its
    send call and a taken value is the return value of its receive call; a
    receive that has returned has returned the value it took, unless it
    found the channel closed and empty; and a receive that runs while
    values are pending takes the oldest one and returns it, while one that
    finds the channel open and empty parks.

    When the ring was allocated and its size in bytes fits [size_t]:
    every schedule runs without undefined behaviour; a send that finds the
    channel open with room deposits its argument behind the pending values
    and returns 0, and one that finds the ring full parks; and when one
    thread sends [v1, ..., vn] ([n <= k]) and then calls [channel_recv]
    [n] times, every send returns 0 and the receives return exactly
    [v1, ..., vn], in that order. *)
Theorem fifo_buffered
    (env : create_env) (k : Z) (ch : Channel) (calls : list call)
    (sched : schedule) :
  0 < k < SIZE_MOD ->
  channel_create env k = Some ch ->
  (forall s log,
     run sched (boot ch calls) = Some (s, log) ->
     deposits log = takes log ++ contents (chan s)
     /\ (forall i v, In (i, Deposit v) log ->
           exists h, calls !! i = Some (CallSend h v))
     /\ (forall i v, In (i, Take v) log ->
           exists h, tasks s !! i = Some (Recv h (RecvRet v)))
     /\ (forall i v, tasks s !! i = Some (Recv ChanHandle (RecvRet v)) ->
           In (i, Take v) log
           \/ (v = zero /\ closed (chan s) = CHANNEL_CLOSED
               /\ count (chan s) = 0))
     /\ (forall pc, (forall r, pc <> RecvRet r) ->
           (count (chan s) <> 0 ->
            exists ch' v,
              channel_recv ChanHandle pc (chan s) = Some (ch', RecvRet v, Take v)
              /\ contents (chan s) = v :: contents ch')
           /\ (count (chan s) = 0 -> closed (chan s) = CHANNEL_OPEN ->
               channel_recv ChanHandle pc (chan s)
               = Some (chan s, RecvWaitData, Quiet))))
  /\ (k * SIZEOF_DOUBLE < SIZE_MOD -> ring_alloc env <> MallocNull ->
      (exists s log, run sched (boot ch calls) = Some (s, log))
      /\ (forall s log,
            run sched (boot ch calls) = Some (s, log) ->
            closed (chan s) = CHANNEL_OPEN ->
            forall v m pc, pc = SendCall \/ pc = SendWaitSpace ->
              (count (chan s) < k ->
               exists ch',
                 channel_send ChanHandle v m pc (chan s)
                 = Some (ch', SendRet 0, Deposit v)
                 /\ contents ch' = contents (chan s) ++ [v])
              /\ (count (chan s) = k ->
                  channel_send ChanHandle v m pc (chan s)
                  = Some (chan s, SendWaitSpace, Quiet)))
      /\ (forall vs m,
            Z.of_nat (length vs) <= k ->
            exists s log,
              run (sequential_schedule (length vs) m)
                  (boot ch (sequential_calls vs)) = Some (s, log)
              /\ tasks s
                 = ((fun v => Send ChanHandle v (SendRet 0)) <$> vs)
                   ++ ((fun v => Recv ChanHandle (RecvRet v)) <$> vs)
              /\ deposits log = vs /\ takes log = vs
              /\ contents (chan s) = [])).
Proof.
  intros Hk Hcreate.
  assert (Hcap : 0 <= k < SIZE_MOD) by lia.
  pose proof (channel_create_ok _ _ _ Hcap Hcreate) as Hch.
  pose proof (boot_ok ch calls Hch) as Hok.
  assert (Hfields : capacity ch = k /\ closed ch = CHANNEL_OPEN
                    /\ contents ch = []).
  { unfold channel_create in Hcreate.
    destruct (struct_alloc env); [|discriminate]. now injection Hcreate as <-. }
  destruct Hfields as (Hcapacity & Hopen0 & Hempty).
  split.
  - intros s log Hrun.
    destruct (run_sound _ _ _ _ Hok Hrun) as ([Hchs _] & _ & Hq).
    simpl chan in Hq. rewrite Hempty in Hq. simpl in Hq.
    split; [assumption|]. split; [|split; [|split]].
    + intros i v Hin. destruct (run_deposits _ _ _ _ _ _ Hrun Hin) as [h Hi].
      rewrite boot_calls in Hi. eauto.
    + intros i v Hin. eapply run_takes; eauto.
    + intros i v Hret.
      destruct (boot_lookup _ _ _ _ _ _ _ Hrun Hret) as (_ & Hi).
      assert (Hcall : forall r, RecvCall <> RecvRet r) by discriminate.
      destruct (run_recv_outcome _ _ _ _ _ _ _ Hok Hrun Hi Hcall Hret)
        as [Hin|(-> & Hshut & Hzero)]; [now left | right].
      split; [reflexivity|]. split; [|assumption].
      destruct (ok_closed _ Hchs) as [E|E]; [|assumption].
      unfold CHANNEL_OPEN in E. contradiction.
    + intros pc Hpc. split.
      * intros Hn. now apply channel_recv_takes.
      * intros Hz Hop. now apply channel_recv_parks.
  - intros Hsize Hring.
    assert (Hmem : mem_ok ch).
    { apply (channel_create_mem_ok env k); auto. lia. }
    destruct (run_defined sched (boot ch calls) Hok Hmem) as (s0 & log0 & Hrun0 & Hmem0);
      [simpl; lia|].
    split; [eauto|]. split.
    + intros s log Hrun Hop v m pc Hpc.
      rewrite Hrun in Hrun0. injection Hrun0 as <- <-.
      destruct (run_sound _ _ _ _ Hok Hrun) as ([Hchs _] & Hsame & _).
      simpl in Hsame. rewrite Hcapacity in Hsame.
      destruct (channel_send_room v m pc (chan s) Hchs Hmem0) as (Hroom & Hfull);
        [lia | assumption | assumption |].
      rewrite Hsame in Hroom, Hfull. split; [|assumption].
      intros Hlt. destruct (Hroom Hlt) as (ch' & E & Hcont & _). eauto.
    + intros vs m Hlen.
      apply run_sequential; auto; lia.
Qed.

Lemma fifo_buffered_witness :
  0 < 4 < SIZE_MOD
  /\ channel_create env_good 4 = Some (created 4)
  /\ run sched_s1 (boot (created 4) calls_s1) = Some (sys_s1_final, log_s1)
  /\ (forall s log,
        run sched_s1 (boot (created 4) calls_s1) = Some (s, log) ->
        deposits log = takes log ++ contents (chan s)
        /\ (forall i v, In (i, Deposit v) log ->
              exists h, calls_s1 !! i = Some (CallSend h v))
        /\ (forall i v, In (i, Take v) log ->
              exists h, tasks s !! i = Some (Recv h (RecvRet v)))
        /\ (forall i v, tasks s !! i = Some (Recv ChanHandle (RecvRet v)) ->
              In (i, Take v) log
              \/ (v = zero /\ closed (chan s) = CHANNEL_CLOSED
                  /\ count (chan s) = 0))
        /\ (forall pc, (forall r, pc <> RecvRet r) ->
              (count (chan s) <> 0 ->
               exists ch' v,
                 channel_recv ChanHandle pc (chan s)
                 = Some (ch', RecvRet v, Take v)
                 /\ contents (chan s) = v :: contents ch')
              /\ (count (chan s) = 0 -> closed (chan s) = CHANNEL_OPEN ->
                  channel_recv ChanHandle pc (chan s)
                  = Some (chan s, RecvWaitData, Quiet))))
  /\ (4 * SIZEOF_DOUBLE < SIZE_MOD -> ring_alloc env_good <> MallocNull ->
      (exists s log, run sched_s1 (boot (created 4) calls_s1) = Some (s, log))
      /\ (forall s log,
            run sched_s1 (boot (created 4) calls_s1) = Some (s, log) ->
            closed (chan s) = CHANNEL_OPEN ->
            forall v m pc, pc = SendCall \/ pc = SendWaitSpace ->
              (count (chan s) < 4 ->
               exists ch',
                 channel_send ChanHandle v m pc (chan s)
                 = Some (ch', SendRet 0, Deposit v)
                 /\ contents ch' = contents (chan s) ++ [v])
              /\ (count (chan s) = 4 ->
                  channel_send ChanHandle v m pc (chan s)
                  = Some (chan s, SendWaitSpace, Quiet)))
      /\ (forall vs m,
            Z.of_nat (length vs) <= 4 ->
            exists s log,
              run (sequential_schedule (length vs) m)
                  (boot (created 4) (sequential_calls vs)) = Some (s, log)
              /\ tasks s
                 = ((fun v => Send ChanHandle v (SendRet 0)) <$> vs)
                   ++ ((fun v => Recv ChanHandle (RecvRet v)) <$> vs)
              /\ deposits log = vs /\ takes log = vs
              /\ contents (chan s) = [])).
Proof.
  split; [vm_compute; split; reflexivity|]. split; [vm_compute; reflexivity|].
  split; [vm_compute; reflexivity|].
  apply (fifo_buffered env_good 4 (created 4) calls_s1 sched_s1);
    [vm_compute; split; reflexivity | vm_compute; reflexivity].
Defined.

(** Scenario S2 run on the code: [create(1)]; the sender deposits 10.0 and
    parks with 20.0 for want of space; the receiver takes 10.0; the sender
    deposits 20.0; the receiver takes 20.0. *)
Example backpressure_s2 :
  run [(0%nat, fresh_block); (1%nat, fresh_block); (2%nat, fresh_block);
       (1%nat, fresh_block); (3%nat, fresh_block)]
      (boot (created 1)
            [CallSend ChanHandle 10%float; CallSend ChanHandle 20%float;
             CallRecv ChanHandle; CallRecv ChanHandle])
  = Some ({| chan := {| buffer := Some [20%float]; read_idx := 0;
                        write_idx := 0; count := 0; capacity := 1;
                        closed := CHANNEL_OPEN |};
             tasks := [Send ChanHandle 10%float (SendRet 0);
                       Send ChanHandle 20%float (SendRet 0);
                       Recv ChanHandle (RecvRet 10%float);
                       Recv ChanHandle (RecvRet 20%float)] |},
          [(0%nat, Deposit 10%float); (1%nat, Quiet); (2%nat, Take 10%float);
           (1%nat, Deposit 20%float); (3%nat, Take 20%float)]).
Proof. vm_compute. reflexivity. Qed.
